(** * Ring orientation: [geos::algorithm::Orientation::isCCW]

    A shallow embedding of [src/algorithm/Orientation.cpp].  Coordinates are
    IEEE binary64 numbers (the kernel's primitive floats), the machine
    integers of the source are integers of [Z] with their wrap-around written
    out, and the function runs in a small monad that records how a call ends
    (a value, a thrown exception, undefined behaviour, or an exhausted loop
    budget) together with the calls made to the orientation-index
    collaborator. *)

From Stdlib Require Import ZArith List Bool Lia String Floats.
Import ListNotations.
Local Open Scope Z_scope.

(** ** Machine integers *)

Definition INT_MIN : Z := - 2 ^ 31.
Definition INT_MAX : Z := 2 ^ 31 - 1.

(** Value of an expression of type [uint32_t]: arithmetic is modulo [2^32]. *)
Definition uint32 (v : Z) : Z := v mod 2 ^ 32.

(** [static_cast<int>] of an unsigned value: reduction modulo [2^32] into
    the range of [int]. *)
Definition static_cast_int (v : Z) : Z := (v + 2 ^ 31) mod 2 ^ 32 - 2 ^ 31.

(** ** How a call ends *)

Inductive exception : Type :=
| IllegalArgumentException (msg : string).

Inductive outcome (A : Type) : Type :=
| Val (a : A)              (* normal completion with a value *)
| Throw (e : exception)    (* a C++ exception leaves the function *)
| Undefined                (* out-of-range element access or signed overflow *)
| OutOfFuel.               (* the loop budget of the model is exhausted *)

Arguments Val {A} a.
Arguments Throw {A} e.
Arguments Undefined {A}.
Arguments OutOfFuel {A}.

Module geom.

(** Modelled from the spec: [geos/geom/Coordinate.h] is not part of the
    sources.  A point has coordinates [x] and [y] (and an elevation that
    the two-dimensional predicates ignore), a distinguished null state in
    which every ordinate is not-a-number, and exact two-dimensional
    equality of the ordinates. *)
Record Coordinate : Type := mkCoordinate { x : float; y : float; z : float }.

Definition DoubleNotANumber : float := nan.

(** Modelled from the spec: the null (unset) point, the sentinel a search
    variable holds before it is populated. *)
Definition setNull : Coordinate :=
  mkCoordinate DoubleNotANumber DoubleNotANumber DoubleNotANumber.

(** Modelled from the spec: the test for the null state. *)
Definition isNull (c : Coordinate) : bool :=
  is_nan (x c) && is_nan (y c) && is_nan (z c).

(** Modelled from the spec: exact structural equality by comparison of the
    two planar ordinates, without tolerance. *)
Definition equals2D (a b : Coordinate) : bool :=
  if negb (x a =? x b)%float then false
  else if negb (y a =? y b)%float then false
  else true.

(** Modelled from the spec: [geos/geom/CoordinateSequence.h] is not part of
    the sources.  A sequence exposes its element count and indexed access
    to a point; reading outside the sequence is undefined. *)
Definition CoordinateSequence : Type := list Coordinate.

(** Modelled from the spec: the element count. *)
Definition size (ring : CoordinateSequence) : Z := Z.of_nat (List.length ring).

(** Modelled from the spec: indexed access to a point, defined inside the
    sequence only. *)
Definition at_index (ring : CoordinateSequence) (i : Z) : option Coordinate :=
  if i <? 0 then None else nth_error ring (Z.to_nat i).

End geom.
Import geom.

(** ** The monad of the embedding *)

(** One recorded call [index(p1, p2, q)]. *)
Definition IndexCall : Type := (Coordinate * Coordinate * Coordinate)%type.

Definition M (A : Type) : Type := (outcome A * list IndexCall)%type.

Definition ret {A : Type} (a : A) : M A := (Val a, []).

Definition throw {A : Type} (e : exception) : M A := (Throw e, []).

Definition bind {A B : Type} (m : M A) (k : A -> M B) : M B :=
  match m with
  | (Val a, calls) => let (r, calls') := k a in (r, calls ++ calls')
  | (Throw e, calls) => (Throw e, calls)
  | (Undefined, calls) => (Undefined, calls)
  | (OutOfFuel, calls) => (OutOfFuel, calls)
  end.

Notation "v <- m ;; k" := (bind m (fun v => k))
  (at level 61, m at next level, right associativity).

(** [ring->getAt(i)] and [ring->getY(i)]. *)
Definition getAt (ring : CoordinateSequence) (i : Z) : M Coordinate :=
  match at_index ring i with
  | Some c => ret c
  | None => (Undefined, [])
  end.

Definition getY (ring : CoordinateSequence) (i : Z) : M float :=
  c <- getAt ring i ;; ret (y c).

(** Subtraction at type [int]; overflow is undefined. *)
Definition int_sub (a b : Z) : M Z :=
  let r := a - b in
  if (INT_MIN <=? r) && (r <=? INT_MAX) then ret r else (Undefined, []).

(** ** The rising-segment scan (lines 63-81) *)

Record ScanState : Type := mkScanState {
  upHiPt : Coordinate;
  prevY : float;
  upLowPt : Coordinate;
  iUpHi : Z
}.

(** Body of the [for] loop at index [i]. *)
Definition scan_body (ring : CoordinateSequence) (i : Z) (s : ScanState)
  : M ScanState :=
  py <- getY ring i ;;
  s' <- (if (prevY s <? py)%float && (y (upHiPt s) <=? py)%float
         then
           hi <- getAt ring i ;;
           lo <- getAt ring (uint32 (i - 1)) ;;
           ret (mkScanState hi (prevY s) lo i)
         else ret s) ;;
  ret (mkScanState (upHiPt s') py (upLowPt s') (iUpHi s')).

(** [n] iterations of the loop from index [i] on. *)
Fixpoint scan_loop (ring : CoordinateSequence) (n : nat) (i : Z) (s : ScanState)
  : M ScanState :=
  match n with
  | O => ret s
  | S n' => s' <- scan_body ring i s ;; scan_loop ring n' (uint32 (i + 1)) s'
  end.

(** State in which the loop [for (i = 1; i <= nPts; i++)] starts. *)
Definition scan_init (ring : CoordinateSequence) : M ScanState :=
  upHiPt0 <- getAt ring 0 ;;
  ret (mkScanState upHiPt0 (y upHiPt0) setNull 0).

(** The state after the iterations [i = 1, ..., k]. *)
Definition scan_prefix (ring : CoordinateSequence) (k : nat) : M ScanState :=
  s <- scan_init ring ;; scan_loop ring k 1 s.

Definition scan (ring : CoordinateSequence) (nPts : Z) : M ScanState :=
  scan_prefix ring (Z.to_nat nPts).

(** ** The falling-segment search (lines 92-95) *)

(** The [do ... while] loop, entered with the current value of [iDownLow];
    every iteration takes one unit of [fuel]. *)
Fixpoint downLow_loop (fuel : nat) (ring : CoordinateSequence) (nPts : Z)
  (iUpHi0 : Z) (upHi : Coordinate) (iDownLow : Z) : M Z :=
  match fuel with
  | O => (OutOfFuel, [])
  | S fuel' =>
      let iDownLow' := uint32 (iDownLow + 1) mod nPts in
      if negb (iDownLow' =? iUpHi0) then
        py <- getY ring iDownLow' ;;
        if (py =? y upHi)%float
        then downLow_loop fuel' ring nPts iUpHi0 upHi iDownLow'
        else ret iDownLow'
      else ret iDownLow'
  end.

(** ** Orientation *)

Module Orientation.

(** Modelled from the spec: the enumeration of [geos/algorithm/Orientation.h]
    is not part of the sources; the orientation index is -1, 0 or +1. *)
Definition CLOCKWISE : Z := -1.
Definition COLLINEAR : Z := 0.
Definition COUNTERCLOCKWISE : Z := 1.

Section WithOrientationIndex.

(** [CGAlgorithmsDD::orientationIndex], the extended-precision
    collaborator: a side-effect-free function of three points. *)
Variable orientationIndex : Coordinate -> Coordinate -> Coordinate -> Z.

(** [Orientation::index]; the call is recorded. *)
Definition index (p1 p2 q : Coordinate) : M Z :=
  (Val (orientationIndex p1 p2 q), [(p1, p2, q)]).

(** [Orientation::isCCW], with a budget of [fuel] iterations for the
    [do ... while] loop. *)
Definition isCCW_fuel (fuel : nat) (ring : CoordinateSequence) : M bool :=
  (* # of points without closing endpoint *)
  inPts <- int_sub (static_cast_int (size ring)) 1 ;;
  (* sanity check *)
  if inPts <? 3 then
    throw (IllegalArgumentException
      "Ring has fewer than 4 points, so orientation cannot be determined")
  else
    let nPts := uint32 inPts in
    s <- scan ring nPts ;;
    (* Check if ring is flat and return default value if so *)
    if iUpHi s =? 0 then ret false
    else
      iDownLow <- downLow_loop fuel ring nPts (iUpHi s) (upHiPt s) (iUpHi s) ;;
      downLowPt <- getAt ring iDownLow ;;
      let iDownHi :=
        if 0 <? iDownLow then uint32 (iDownLow - 1) else uint32 (nPts - 1) in
      downHiPt <- getAt ring iDownHi ;;
      if equals2D (upHiPt s) downHiPt then
        (* pointed cap; check for the configuration A-B-A *)
        if equals2D (upLowPt s) (upHiPt s)
           || equals2D downLowPt (upHiPt s)
           || equals2D (upLowPt s) downLowPt
        then ret false
        else
          orientation <- index (upLowPt s) (upHiPt s) downLowPt ;;
          ret (orientation =? COUNTERCLOCKWISE)
      else
        (* flat cap: direction of flat top determines orientation *)
        let delX := (x downHiPt - x (upHiPt s))%float in
        ret (delX <? 0)%float.

(** The [do ... while] loop leaves within one turn around the ring (see
    [downLow_search_terminates] below), so the point count is budget
    enough. *)
Definition isCCW (ring : CoordinateSequence) : M bool :=
  isCCW_fuel (List.length ring) ring.

End WithOrientationIndex.

End Orientation.
Import Orientation.

Module CGAlgorithmsDD.

(** The finite number [f] scaled by [2^1074], an integer. *)
Definition scaled (f : float) : option Z :=
  match Prim2SF f with
  | S754_zero _ => Some 0
  | S754_finite s m e =>
      Some ((if s then -1 else 1) * Z.pos m * 2 ^ (e + 1074))
  | S754_infinity _ | S754_nan => None
  end.

(** Modelled from the spec: [CGAlgorithmsDD::orientationIndex] is not part of
    the sources.  The sign of the cross product (p2 - p1) x (q - p1), here
    computed without rounding from the binary expansions of the ordinates;
    0 when an ordinate is not finite.  The statements below hold for any
    collaborator; this one serves in the examples. *)
Definition orientationIndex (p1 p2 q : Coordinate) : Z :=
  match scaled (x p1), scaled (y p1), scaled (x p2), scaled (y p2),
        scaled (x q), scaled (y q) with
  | Some x1, Some y1, Some x2, Some y2, Some qx, Some qy =>
      Z.sgn ((x2 - x1) * (qy - y1) - (y2 - y1) * (qx - x1))
  | _, _, _, _, _, _ => 0
  end.

End CGAlgorithmsDD.

(** ** Vocabulary of the statements *)

(** A point with the given ordinates and no elevation. *)
Definition pt (a b : float) : Coordinate := mkCoordinate a b DoubleNotANumber.

(** The ring's point count is representable at type [int], so that the
    conversion of line 48 keeps its value. *)
Definition fits_int (ring : CoordinateSequence) : Prop := size ring <= INT_MAX.

(** The four points the landmark search hands to the cap classification. *)
Record Landmarks : Type := mkLandmarks {
  lm_upLowPt : Coordinate;
  lm_upHiPt : Coordinate;
  lm_downLowPt : Coordinate;
  lm_downHiPt : Coordinate
}.

(** Line 98: the index before [iDownLow] around the ring. *)
Definition iDownHi_of (nPts iDownLow : Z) : Z :=
  if 0 <? iDownLow then iDownLow - 1 else nPts - 1.

(** The landmark search of lines 63-99 on its own; [None] for a flat ring
    (and when a step does not complete). *)
Definition landmark_search (ring : CoordinateSequence) : option Landmarks :=
  let nPts := size ring - 1 in
  match scan ring nPts with
  | (Val s, _) =>
      if iUpHi s =? 0 then None
      else
        match downLow_loop (List.length ring) ring nPts
                (iUpHi s) (upHiPt s) (iUpHi s) with
        | (Val iDownLow, _) =>
            match at_index ring iDownLow,
                  at_index ring (iDownHi_of nPts iDownLow) with
            | Some downLowPt, Some downHiPt =>
                Some (mkLandmarks (upLowPt s) (upHiPt s) downLowPt downHiPt)
            | _, _ => None
            end
        | _ => None
        end
  | _ => None
  end.

(** The value [upHiPt.y] against which iteration [i] of the scan compares:
    the best y reached by an upward step before [i]. *)
Definition running_max_y (ring : CoordinateSequence) (i : Z) : option float :=
  match scan_prefix ring (Z.to_nat (i - 1)) with
  | (Val s, _) => Some (y (upHiPt s))
  | _ => None
  end.

(** Vertex [i] ends an upward step that reaches the running maximum. *)
Definition rising_to_high (ring : CoordinateSequence) (i : Z) : bool :=
  match at_index ring (i - 1), at_index ring i, running_max_y ring i with
  | Some prev, Some cur, Some best =>
      (y prev <? y cur)%float && (best <=? y cur)%float
  | _, _, _ => false
  end.

(** The points of a ring without repetition (by [equals2D]). *)
Fixpoint distinct2D (ring : CoordinateSequence) : list Coordinate :=
  match ring with
  | [] => []
  | c :: rest =>
      if existsb (equals2D c) rest then distinct2D rest else c :: distinct2D rest
  end.

(** The ring is closed: its first and last points coincide. *)
Definition isClosed (ring : CoordinateSequence) : bool :=
  match at_index ring 0, at_index ring (size ring - 1) with
  | Some first, Some last => equals2D first last
  | _, _ => false
  end.

(** Every point of the ring coincides with [a] or with [b]: the ring has no
    three distinct points. *)
Definition covered_by (ring : CoordinateSequence) (a b : Coordinate) : bool :=
  forallb (fun c => equals2D c a || equals2D c b) ring.

(** Big-step reading of a call: some loop budget lets the call end with
    [r]. *)
Definition ends_with (orientationIndex : Coordinate -> Coordinate -> Coordinate -> Z)
  (ring : CoordinateSequence) (r : M bool) : Prop :=
  exists fuel, isCCW_fuel orientationIndex fuel ring = r /\ fst r <> OutOfFuel.

(** What the scan has established once index [k] is processed: [prevY] is
    the y of vertex [k], and either no upward step has qualified yet or the
    recorded points are the ends of the upward step into vertex [iUpHi]. *)
Definition scan_inv (ring : CoordinateSequence) (k : Z) (s : ScanState) : Prop :=
  (exists c, at_index ring k = Some c /\ prevY s = y c) /\
  ((iUpHi s = 0 /\ at_index ring 0 = Some (upHiPt s) /\ upLowPt s = setNull) \/
   (1 <= iUpHi s <= k /\
    at_index ring (iUpHi s) = Some (upHiPt s) /\
    at_index ring (iUpHi s - 1) = Some (upLowPt s) /\
    (y (upLowPt s) <? y (upHiPt s))%float = true)).

(** Sample rings. *)
Definition unit_square : CoordinateSequence :=
  [pt 0 0; pt 1 0; pt 1 1; pt 0 1; pt 0 0]%float.
Definition unit_square_reversed : CoordinateSequence :=
  [pt 0 0; pt 0 1; pt 1 1; pt 1 0; pt 0 0]%float.
Definition triangle : CoordinateSequence :=
  [pt 0 0; pt 2 0; pt 1 1; pt 0 0]%float.
Definition flat_top : CoordinateSequence :=
  [pt 0 0; pt 2 0; pt 2 1; pt 1 1; pt 0 1; pt 0 0]%float.
Definition flat_ring : CoordinateSequence :=
  [pt 0 0; pt 1 0; pt 2 0; pt 0 0]%float.
Definition back_and_forth : CoordinateSequence :=
  [pt 0 0; pt 1 1; pt 0 0; pt 1 1; pt 0 0]%float.
Definition high_at_closing_point : CoordinateSequence :=
  [pt 0 1; pt 1 1; pt 0.5 0; pt 0 1]%float.
Definition two_points : CoordinateSequence :=
  [pt 0 0; pt 1 1; pt 0 0]%float.

(** A ring with a single highest vertex, at index 3. *)
Definition house : CoordinateSequence :=
  [pt 1 0; pt 3 0; pt 4 1; pt 2 3; pt 0 1; pt 1 0]%float.

(** ** Vocabulary of the further properties *)

(** The y ordinates of the ring are numbers (none is not-a-number). *)
Definition numbers_y (ring : CoordinateSequence) : bool :=
  forallb (fun c => negb (is_nan (y c))) ring.

(** Both planar ordinates of the point are numbers. *)
Definition is_point (c : Coordinate) : bool :=
  negb (is_nan (x c)) && negb (is_nan (y c)).

(** A key that orders the binary64 numbers as their comparison does: class
    and sign first, then exponent, then mantissa. *)
Definition sf_key (f : spec_float) : Z * Z * Z :=
  match f with
  | S754_zero _ => (0, 0, 0)
  | S754_infinity s => (if s then -2 else 2, 0, 0)
  | S754_nan => (0, 0, 0)
  | S754_finite s m e => if s then (-1, - e, - Z.pos m) else (1, e, Z.pos m)
  end.

Definition lex_lt (a b : Z * Z * Z) : Prop :=
  let '(a1, a2, a3) := a in
  let '(b1, b2, b3) := b in
  a1 < b1 \/ (a1 = b1 /\ (a2 < b2 \/ (a2 = b2 /\ a3 < b3))).

Definition float_key (a : float) : Z * Z * Z := sf_key (Prim2SF a).

(** The computation makes no call to the collaborator. *)
Definition silent {A : Type} (m : M A) : Prop := snd m = [].

(** The orientation index of a recorded call. *)
Definition index_of (orientationIndex : Coordinate -> Coordinate -> Coordinate -> Z)
  (call : IndexCall) : Z :=
  let '(p1, p2, q) := call in orientationIndex p1 p2 q.

(** * Properties *)

(** ** Machine integers *)

Lemma uint32_small (v : Z) : 0 <= v < 2 ^ 32 -> uint32 v = v.
Proof. intros H. unfold uint32. now apply Z.mod_small. Qed.

Lemma static_cast_int_small (v : Z) :
  INT_MIN <= v <= INT_MAX -> static_cast_int v = v.
Proof.
  unfold static_cast_int, INT_MIN, INT_MAX. intros H.
  rewrite Z.mod_small; lia.
Qed.

Lemma int_sub_in_range (a b : Z) :
  INT_MIN <= a - b <= INT_MAX -> int_sub a b = ret (a - b).
Proof.
  intros [Hlo Hhi]. unfold int_sub.
  apply Z.leb_le in Hlo, Hhi. now rewrite Hlo, Hhi.
Qed.

(** ** Comparisons of binary64 numbers *)

Lemma ltb_eqb_false (a b : float) :
  (a <? b)%float = true -> (a =? b)%float = false.
Proof.
  rewrite ltb_spec, eqb_spec. unfold SFltb, SFeqb.
  destruct (SFcompare (Prim2SF a) (Prim2SF b)) as [[]|]; congruence.
Qed.

Lemma SFcompare_refl (f : spec_float) :
  f <> S754_nan -> SFcompare f f = Some Eq.
Proof.
  destruct f as [s|s| |s m e]; intros H; simpl.
  - reflexivity.
  - now destruct s.
  - congruence.
  - rewrite Z.compare_refl.
    replace (Pos.compare_cont Eq m m) with (m ?= m)%positive by reflexivity.
    rewrite Pos.compare_refl. now destruct s.
Qed.

Lemma ltb_is_nan_l (a b : float) :
  (a <? b)%float = true -> is_nan a = false.
Proof.
  rewrite ltb_spec. unfold is_nan, SFltb. rewrite eqb_spec. unfold SFeqb.
  intros H.
  destruct (Prim2SF a) eqn:Ha; [| | simpl in H; discriminate |];
    now rewrite SFcompare_refl.
Qed.

Lemma ltb_is_nan_r (a b : float) :
  (a <? b)%float = true -> is_nan b = false.
Proof.
  rewrite ltb_spec. unfold is_nan, SFltb. rewrite eqb_spec. unfold SFeqb.
  intros H.
  destruct (Prim2SF b) eqn:Hb;
    [| | destruct (Prim2SF a); simpl in H; discriminate |];
    now rewrite SFcompare_refl.
Qed.

Lemma eqb_refl_not_nan (a : float) : is_nan a = false -> (a =? a)%float = true.
Proof. unfold is_nan. now destruct (a =? a)%float. Qed.

(** Equality of two finite numbers is equality of their expansions. *)
Lemma SFeqb_finite (s1 s2 : bool) (m1 m2 : positive) (e1 e2 : Z) :
  SFeqb (S754_finite s1 m1 e1) (S754_finite s2 m2 e2) = true ->
  s1 = s2 /\ m1 = m2 /\ e1 = e2.
Proof.
  unfold SFeqb, SFcompare.
  destruct s1, s2; try discriminate;
    destruct (e1 ?= e2) eqn:Ee; try discriminate;
    apply Z.compare_eq in Ee; subst;
    change (Pos.compare_cont Eq m1 m2) with (m1 ?= m2)%positive;
    destruct (m1 ?= m2)%positive eqn:Em; try discriminate;
    apply Pos.compare_eq in Em; subst; auto.
Qed.

Ltac sf_cases :=
  unfold SFeqb; simpl;
  repeat match goal with s : bool |- _ => destruct s end;
  simpl; try discriminate; try reflexivity.

Lemma SFeqb_sym (f g : spec_float) : SFeqb f g = true -> SFeqb g f = true.
Proof.
  destruct f as [s|s| |s m e], g as [s'|s'| |s' m' e'];
    try (intros H; apply SFeqb_finite in H; destruct H as (-> & -> & ->);
         unfold SFeqb; now rewrite SFcompare_refl);
    sf_cases.
Qed.

Lemma SFeqb_trans (f g h : spec_float) :
  SFeqb f g = true -> SFeqb g h = true -> SFeqb f h = true.
Proof.
  destruct f as [s|s| |s m e], g as [s'|s'| |s' m' e'],
           h as [s''|s''| |s'' m'' e''];
    try (intros H H'; apply SFeqb_finite in H; destruct H as (-> & -> & ->);
         exact H');
    try (intros H; exfalso; revert H; sf_cases; fail);
    try (intros _ H; exfalso; revert H; sf_cases; fail);
    sf_cases.
Qed.

Lemma eqb_sym (a b : float) : (a =? b)%float = true -> (b =? a)%float = true.
Proof. rewrite !eqb_spec. apply SFeqb_sym. Qed.

Lemma eqb_trans (a b c : float) :
  (a =? b)%float = true -> (b =? c)%float = true -> (a =? c)%float = true.
Proof. rewrite !eqb_spec. apply SFeqb_trans. Qed.

Lemma equals2D_true (a b : Coordinate) :
  equals2D a b = true <->
  (x a =? x b)%float = true /\ (y a =? y b)%float = true.
Proof.
  unfold equals2D.
  destruct (x a =? x b)%float, (y a =? y b)%float; simpl; intuition congruence.
Qed.

Lemma equals2D_sym (a b : Coordinate) :
  equals2D a b = true -> equals2D b a = true.
Proof.
  rewrite !equals2D_true. intros [Hx Hy]. split; now apply eqb_sym.
Qed.

Lemma equals2D_trans (a b c : Coordinate) :
  equals2D a b = true -> equals2D b c = true -> equals2D a c = true.
Proof.
  rewrite !equals2D_true. intros [Hx Hy] [Hx' Hy'].
  split; eapply eqb_trans; eassumption.
Qed.

Lemma equals2D_y (a b : Coordinate) :
  equals2D a b = true -> (y a =? y b)%float = true.
Proof. rewrite equals2D_true. tauto. Qed.

(** ** Access to the sequence *)

Lemma at_index_in_range (ring : CoordinateSequence) (i : Z) :
  0 <= i < size ring -> exists c, at_index ring i = Some c.
Proof.
  unfold size, at_index. intros H.
  destruct (i <? 0) eqn:E; [apply Z.ltb_lt in E; lia|].
  destruct (nth_error ring (Z.to_nat i)) eqn:N; [now eexists|].
  apply nth_error_None in N. lia.
Qed.

Lemma getAt_Some (ring : CoordinateSequence) (i : Z) (c : Coordinate) :
  at_index ring i = Some c -> getAt ring i = ret c.
Proof. unfold getAt. now intros ->. Qed.

Lemma getY_Some (ring : CoordinateSequence) (i : Z) (c : Coordinate) :
  at_index ring i = Some c -> getY ring i = ret (y c).
Proof. unfold getY. intros H. now rewrite (getAt_Some _ _ _ H). Qed.

(** ** Laws of the monad *)

Lemma bind_ret_l {A B : Type} (a : A) (k : A -> M B) : bind (ret a) k = k a.
Proof. unfold bind, ret. now destruct (k a). Qed.

Lemma bind_assoc {A B C : Type} (m : M A) (k : A -> M B) (h : B -> M C) :
  bind (bind m k) h = bind m (fun a => bind (k a) h).
Proof.
  destruct m as [[a| | |] l]; simpl; try reflexivity.
  destruct (k a) as [[b| | |] l']; simpl; try reflexivity.
  destruct (h b) as [r l'']. now rewrite app_assoc.
Qed.

Lemma bind_ret_r {A : Type} (m : M A) : bind m (fun a => ret a) = m.
Proof.
  destruct m as [[a| | |] l]; simpl; try reflexivity.
  now rewrite app_nil_r.
Qed.

Lemma bind_ext {A B : Type} (m : M A) (k k' : A -> M B) :
  (forall a, k a = k' a) -> bind m k = bind m k'.
Proof.
  intros H. destruct m as [[a| | |] l]; simpl; try reflexivity.
  now rewrite H.
Qed.

(** ** The rising-segment scan *)

Section Scan.

Variable ring : CoordinateSequence.

(** One iteration, once its two reads are known to be inside the ring. *)
Lemma scan_body_eq (i : Z) (s : ScanState) (prev cur : Coordinate) :
  1 <= i < 2 ^ 32 ->
  at_index ring (i - 1) = Some prev ->
  at_index ring i = Some cur ->
  scan_body ring i s =
  ret (if (prevY s <? y cur)%float && (y (upHiPt s) <=? y cur)%float
       then mkScanState cur (y cur) prev i
       else mkScanState (upHiPt s) (y cur) (upLowPt s) (iUpHi s)).
Proof.
  intros Hi Hprev Hcur. unfold scan_body.
  rewrite (getY_Some _ _ _ Hcur), bind_ret_l.
  destruct ((prevY s <? y cur)%float && (y (upHiPt s) <=? y cur)%float).
  - rewrite (getAt_Some _ _ _ Hcur), bind_ret_l.
    rewrite uint32_small by lia.
    rewrite (getAt_Some _ _ _ Hprev). now rewrite !bind_ret_l.
  - now rewrite bind_ret_l.
Qed.

(** The last of [n + 1] iterations can be split off. *)
Lemma scan_loop_snoc (n : nat) : forall (i : Z) (s : ScanState),
  0 <= i -> i + Z.of_nat n < 2 ^ 32 ->
  scan_loop ring (S n) i s =
  bind (scan_loop ring n i s) (scan_body ring (i + Z.of_nat n)).
Proof.
  induction n as [|n IH]; intros i s Hi Hn.
  - simpl scan_loop. rewrite bind_ret_l, Z.add_0_r. apply bind_ret_r.
  - change (scan_loop ring (S (S n)) i s)
      with (bind (scan_body ring i s)
              (fun s' => scan_loop ring (S n) (uint32 (i + 1)) s')).
    change (scan_loop ring (S n) i s)
      with (bind (scan_body ring i s)
              (fun s' => scan_loop ring n (uint32 (i + 1)) s')).
    rewrite bind_assoc. apply bind_ext. intros s'.
    rewrite uint32_small by lia.
    rewrite IH by lia. f_equal. f_equal. lia.
Qed.

Lemma scan_prefix_S (k : nat) :
  Z.of_nat k + 1 < 2 ^ 32 ->
  scan_prefix ring (S k) =
  bind (scan_prefix ring k) (scan_body ring (Z.of_nat k + 1)).
Proof.
  intros Hk. unfold scan_prefix. rewrite bind_assoc. apply bind_ext.
  intros s. rewrite scan_loop_snoc by lia. f_equal. f_equal. lia.
Qed.

Lemma scan_inv_step (i : Z) (s : ScanState) (prev cur : Coordinate) :
  1 <= i ->
  at_index ring (i - 1) = Some prev ->
  at_index ring i = Some cur ->
  scan_inv ring (i - 1) s ->
  scan_inv ring i
    (if (prevY s <? y cur)%float && (y (upHiPt s) <=? y cur)%float
     then mkScanState cur (y cur) prev i
     else mkScanState (upHiPt s) (y cur) (upLowPt s) (iUpHi s)).
Proof.
  intros Hi Hprev Hcur [[c [Hc Hy]] Hs].
  assert (c = prev) by congruence. subst c.
  destruct ((prevY s <? y cur)%float && (y (upHiPt s) <=? y cur)%float) eqn:G.
  - apply andb_prop in G. destruct G as [G _]. rewrite Hy in G.
    split; [now exists cur|]. right. simpl. repeat split; try assumption; lia.
  - split; [now exists cur|]. simpl.
    destruct Hs as [H0|(Hr & H1 & H2 & H3)]; [now left|].
    right. repeat split; try assumption; lia.
Qed.

(** The scan reads inside the ring only, and keeps [scan_inv]. *)
Lemma scan_prefix_inv (k : nat) :
  Z.of_nat k < size ring -> size ring <= 2 ^ 32 ->
  exists s, scan_prefix ring k = ret s /\ scan_inv ring (Z.of_nat k) s.
Proof.
  intros Hk Hsz. induction k as [|k IH].
  - destruct (at_index_in_range ring 0) as [c Hc]; [lia|].
    exists (mkScanState c (y c) setNull 0). split.
    + unfold scan_prefix, scan_init.
      rewrite (getAt_Some _ _ _ Hc). now rewrite !bind_ret_l.
    + split; [now exists c|]. now left.
  - destruct IH as [s [Hs Hinv]]; [lia|].
    destruct (at_index_in_range ring (Z.of_nat k)) as [prev Hprev]; [lia|].
    destruct (at_index_in_range ring (Z.of_nat k + 1)) as [cur Hcur]; [lia|].
    rewrite scan_prefix_S by lia. rewrite Hs, bind_ret_l.
    replace (Z.of_nat k) with (Z.of_nat k + 1 - 1) in Hprev, Hinv by lia.
    rewrite (scan_body_eq _ s prev cur) by (assumption || lia).
    eexists. split; [reflexivity|].
    replace (Z.of_nat (S k)) with (Z.of_nat k + 1) by lia.
    apply scan_inv_step; (assumption || lia).
Qed.

End Scan.

(** ** The falling-segment search *)

(** Going one place ahead and one place back around the ring. *)
Lemma iDownHi_of_next (nPts n : Z) :
  0 < nPts -> 0 <= n -> iDownHi_of nPts ((n + 1) mod nPts) = n mod nPts.
Proof.
  intros HnPts Hn. unfold iDownHi_of.
  rewrite <- (Z.add_mod_idemp_l n 1 nPts) by lia.
  pose proof (Z.mod_pos_bound n nPts ltac:(lia)) as Hm.
  destruct (Z.eq_dec (n mod nPts + 1) nPts) as [Hlast|Hlast].
  - rewrite Hlast, Z.mod_same by lia. simpl. lia.
  - rewrite Z.mod_small by lia.
    destruct (0 <? n mod nPts + 1) eqn:E; [lia|]. apply Z.ltb_ge in E. lia.
Qed.

Section DownLow.

Variable ring : CoordinateSequence.
Variables (nPts iUp : Z) (upHi : Coordinate).

Lemma downLow_loop_S (fuel : nat) (iDownLow : Z) :
  downLow_loop (S fuel) ring nPts iUp upHi iDownLow =
  if negb (uint32 (iDownLow + 1) mod nPts =? iUp) then
    bind (getY ring (uint32 (iDownLow + 1) mod nPts))
      (fun py =>
         if (py =? y upHi)%float
         then downLow_loop fuel ring nPts iUp upHi (uint32 (iDownLow + 1) mod nPts)
         else ret (uint32 (iDownLow + 1) mod nPts))
  else ret (uint32 (iDownLow + 1) mod nPts).
Proof. reflexivity. Qed.

(** A run that ends within its budget ends the same way with a larger
    one. *)
Lemma downLow_loop_more_fuel (fuel : nat) : forall (fuel' : nat) (iDownLow : Z),
  (fuel <= fuel')%nat ->
  fst (downLow_loop fuel ring nPts iUp upHi iDownLow) <> OutOfFuel ->
  downLow_loop fuel' ring nPts iUp upHi iDownLow =
  downLow_loop fuel ring nPts iUp upHi iDownLow.
Proof.
  induction fuel as [|fuel IH]; intros fuel' cur Hle Hend.
  - simpl in Hend. congruence.
  - destruct fuel' as [|fuel']; [lia|].
    rewrite !downLow_loop_S in *.
    destruct (negb (uint32 (cur + 1) mod nPts =? iUp)); [|reflexivity].
    destruct (getY ring (uint32 (cur + 1) mod nPts)) as [[py| | |] l];
      simpl in *; try reflexivity.
    destruct (py =? y upHi)%float; [|reflexivity].
    rewrite IH; [reflexivity|lia|].
    destruct (downLow_loop fuel ring nPts iUp upHi (uint32 (cur + 1) mod nPts)).
    exact Hend.
Qed.

Hypothesis HnPts : 3 <= nPts < size ring.
Hypothesis Hword : nPts < 2 ^ 32 - 1.

(** If some vertex [t] below the closing point has a y other than
    [upHi.y], the loop leaves when it gets there at the latest: from
    [iDownLow], after [d'] iterations, no more than [d] when [t] lies [d]
    places ahead around the ring.  It leaves at [iUp] or at a vertex whose y
    is not [upHi.y], and unless it leaves at once the vertex before that one
    is level with [upHi]. *)
Lemma downLow_loop_reaches (t : Z) (c : Coordinate) :
  0 <= t < nPts ->
  at_index ring t = Some c ->
  (y c =? y upHi)%float = false ->
  forall (fuel : nat) (iDownLow d : Z),
    0 <= iDownLow <= nPts ->
    1 <= d <= Z.of_nat fuel ->
    (iDownLow + d) mod nPts = t ->
    exists i d',
      downLow_loop fuel ring nPts iUp upHi iDownLow = ret i /\
      0 <= i < nPts /\
      1 <= d' <= d /\ i = (iDownLow + d') mod nPts /\
      (i = iUp \/
       exists c', at_index ring i = Some c' /\ (y c' =? y upHi)%float = false) /\
      (d' = 1 \/
       exists c', at_index ring (iDownHi_of nPts i) = Some c' /\
                  (y c' =? y upHi)%float = true).
Proof.
  intros Ht Hc Hyc. induction fuel as [|fuel IH]; intros cur d Hcur Hd Hmod.
  - lia.
  - rewrite downLow_loop_S. rewrite uint32_small by lia.
    assert (Hnext : 0 <= (cur + 1) mod nPts < nPts)
      by (apply Z.mod_pos_bound; lia).
    destruct ((cur + 1) mod nPts =? iUp) eqn:Eup; simpl negb; cbv iota.
    { apply Z.eqb_eq in Eup. exists ((cur + 1) mod nPts), 1.
      split; [reflexivity|]. split; [lia|]. split; [lia|].
      split; [reflexivity|]. split; now left. }
    destruct (at_index_in_range ring ((cur + 1) mod nPts)) as [c' Hc']; [lia|].
    rewrite (getY_Some _ _ _ Hc'), bind_ret_l.
    destruct (y c' =? y upHi)%float eqn:E.
    + assert (d <> 1).
      { intros ->. rewrite Hmod in Hc'. congruence. }
      destruct (IH ((cur + 1) mod nPts) (d - 1))
        as (i & d' & Hrun & Hi & Hd' & Hid & Hexit & Hbefore); [lia|lia| |].
      { rewrite Z.add_mod_idemp_l by lia. rewrite <- Hmod. f_equal. lia. }
      exists i, (d' + 1).
      split; [exact Hrun|]. split; [exact Hi|]. split; [lia|].
      split; [|split; [exact Hexit|]].
      * rewrite Hid. rewrite Z.add_mod_idemp_l by lia. f_equal. lia.
      * right. destruct Hbefore as [->|Hbefore]; [|exact Hbefore].
        exists c'. split; [|exact E].
        rewrite Hid, iDownHi_of_next by lia. now rewrite Z.mod_small by lia.
    + exists ((cur + 1) mod nPts), 1.
      split; [reflexivity|]. split; [lia|]. split; [lia|].
      split; [reflexivity|]. split; [right; now exists c'|now left].
Qed.

End DownLow.

(** ** The whole function *)

Section IsCCW.

Variable orientationIndex : Coordinate -> Coordinate -> Coordinate -> Z.
Variable ring : CoordinateSequence.

Lemma isCCW_fuel_more_fuel (fuel fuel' : nat) :
  (fuel <= fuel')%nat ->
  fst (isCCW_fuel orientationIndex fuel ring) <> OutOfFuel ->
  isCCW_fuel orientationIndex fuel' ring = isCCW_fuel orientationIndex fuel ring.
Proof.
  intros Hle. unfold isCCW_fuel.
  destruct (int_sub (static_cast_int (size ring)) 1) as [[inPts| | |] l];
    simpl; try reflexivity.
  destruct (inPts <? 3); [reflexivity|].
  destruct (scan ring (uint32 inPts)) as [[s| | |] l']; simpl; try reflexivity.
  destruct (iUpHi s =? 0); [reflexivity|].
  intros Hend.
  rewrite (downLow_loop_more_fuel ring (uint32 inPts) (iUpHi s) (upHiPt s)
             fuel fuel' (iUpHi s) Hle); [reflexivity|].
  destruct (downLow_loop fuel ring (uint32 inPts) (iUpHi s) (upHiPt s) (iUpHi s))
    as [[i| | |] l'']; simpl in *; congruence.
Qed.

Hypothesis Hsize : 4 <= size ring.
Hypothesis Hfits : fits_int ring.

(** The length check lets the ring through, and [nPts] is its point count
    less one. *)
Lemma length_check_passed :
  int_sub (static_cast_int (size ring)) 1 = ret (size ring - 1) /\
  (size ring - 1 <? 3) = false /\
  uint32 (size ring - 1) = size ring - 1.
Proof.
  unfold fits_int, INT_MAX in Hfits.
  rewrite static_cast_int_small by (unfold INT_MIN, INT_MAX; lia).
  rewrite int_sub_in_range by (unfold INT_MIN, INT_MAX; lia).
  repeat split; [apply Z.ltb_ge; lia | apply uint32_small; lia].
Qed.

Lemma scan_completes :
  exists s, scan ring (size ring - 1) = ret s /\ scan_inv ring (size ring - 1) s.
Proof.
  unfold fits_int, INT_MAX in Hfits.
  destruct (scan_prefix_inv ring (Z.to_nat (size ring - 1))) as [s [Hs Hinv]];
    [lia|lia|].
  exists s. split; [exact Hs|]. now rewrite Z2Nat.id in Hinv by lia.
Qed.

(** The [do ... while] loop leaves before it is back at [iUpHi]: the
    vertex before the high point is lower, and it lies [nPts - 1] places
    ahead of [iUpHi] around the ring, also when [iUpHi = nPts].  So the loop
    always leaves through the test on y, at a vertex off the level of
    [upHiPt]; the vertex before that one is the high point itself (or the
    first point, when [iUpHi = nPts]) or a vertex level with it. *)
Lemma downLow_search_terminates (s : ScanState) :
  scan_inv ring (size ring - 1) s ->
  iUpHi s <> 0 ->
  exists i, 0 <= i < size ring - 1 /\ i <> iUpHi s /\
    (exists c, at_index ring i = Some c /\ (y c =? y (upHiPt s))%float = false) /\
    (iDownHi_of (size ring - 1) i = iUpHi s mod (size ring - 1) \/
     exists c, at_index ring (iDownHi_of (size ring - 1) i) = Some c /\
               (y c =? y (upHiPt s))%float = true) /\
    forall fuel, size ring - 2 <= Z.of_nat fuel ->
      downLow_loop fuel ring (size ring - 1) (iUpHi s) (upHiPt s) (iUpHi s)
      = ret i.
Proof.
  intros [_ [[H0 _]|(Hr & Hhi & Hlo & Hlt)]] Hup; [contradiction|].
  unfold fits_int, INT_MAX in Hfits.
  set (nPts := size ring - 1) in *.
  pose proof (ltb_eqb_false _ _ Hlt) as Hne.
  destruct (downLow_loop_reaches ring nPts (iUpHi s) (upHiPt s)
              ltac:(lia) ltac:(lia) (iUpHi s - 1) (upLowPt s)
              ltac:(lia) Hlo Hne (Z.to_nat (nPts - 1)) (iUpHi s) (nPts - 1))
    as (i & d' & Hloop & Hi & Hd' & Hid & Hexit & Hbefore); [lia|lia| |].
  { replace (iUpHi s + (nPts - 1)) with (iUpHi s - 1 + 1 * nPts) by lia.
    rewrite Z.mod_add by lia. apply Z.mod_small. lia. }
  assert (Hoff : i <> iUpHi s).
  { intros Heq. rewrite Heq in Hid, Hi.
    destruct (Z_lt_ge_dec (iUpHi s + d') nPts) as [Hlt'|Hge'].
    - rewrite Z.mod_small in Hid by lia. lia.
    - replace (iUpHi s + d') with (iUpHi s + d' - nPts + 1 * nPts) in Hid by lia.
      rewrite Z.mod_add in Hid by lia. rewrite Z.mod_small in Hid by lia. lia. }
  exists i. split; [exact Hi|]. split; [exact Hoff|].
  split; [destruct Hexit as [Heq|Hexit]; [contradiction|exact Hexit]|].
  split.
  - destruct Hbefore as [->|Hbefore]; [left|right; exact Hbefore].
    rewrite Hid. apply iDownHi_of_next; lia.
  - intros fuel Hfuel.
    rewrite <- Hloop. apply downLow_loop_more_fuel; [lia|].
    rewrite Hloop. discriminate.
Qed.

(** The decision taken once the four landmarks are known (lines 110-134),
    and what the search guarantees about them. *)
Lemma isCCW_fuel_nonflat (s : ScanState) :
  scan ring (size ring - 1) = ret s ->
  iUpHi s <> 0 ->
  exists downLowPt downHiPt,
    landmark_search ring =
      Some (mkLandmarks (upLowPt s) (upHiPt s) downLowPt downHiPt) /\
    (forall fuel, size ring - 2 <= Z.of_nat fuel ->
     isCCW_fuel orientationIndex fuel ring =
       if equals2D (upHiPt s) downHiPt then
         if equals2D (upLowPt s) (upHiPt s)
            || equals2D downLowPt (upHiPt s)
            || equals2D (upLowPt s) downLowPt
         then ret false
         else (Val (orientationIndex (upLowPt s) (upHiPt s) downLowPt
                      =? COUNTERCLOCKWISE),
               [(upLowPt s, upHiPt s, downLowPt)])
       else ret (x downHiPt - x (upHiPt s) <? 0)%float) /\
    (In downLowPt ring /\ In downHiPt ring) /\
    (y downLowPt =? y (upHiPt s))%float = false /\
    (isClosed ring = true -> (y downHiPt =? y (upHiPt s))%float = true).
Proof.
  intros Hscan Hup.
  destruct scan_completes as [s' [Hs' Hinv]].
  assert (s' = s) by (rewrite Hscan in Hs'; inversion Hs'; reflexivity).
  subst s'.
  destruct (downLow_search_terminates s Hinv Hup)
    as (i & Hi & _ & (dl & Hdl & Hoff) & Hbefore & Hany).
  destruct Hinv as [_ [[H0 _]|(Hr & Hhi & Hlo & Hlt)]]; [contradiction|].
  unfold fits_int, INT_MAX in Hfits.
  set (nPts := size ring - 1) in *.
  destruct (at_index_in_range ring (iDownHi_of nPts i)) as [dh Hdh].
  { unfold iDownHi_of. destruct (0 <? i) eqn:E; [apply Z.ltb_lt in E|]; lia. }
  assert (Hin : forall j c, at_index ring j = Some c -> In c ring).
  { intros j c Hj. unfold at_index in Hj. destruct (j <? 0); [discriminate|].
    eapply nth_error_In; eassumption. }
  exists dl, dh. split; [|split; [|split; [|split]]].
  - unfold landmark_search. fold nPts. rewrite Hscan. unfold ret.
    rewrite (proj2 (Z.eqb_neq _ _) Hup).
    rewrite Hany by (unfold nPts, size; lia). unfold ret.
    now rewrite Hdl, Hdh.
  - intros fuel Hfuel.
    destruct length_check_passed as (Hsub & Hchk & Hu).
    unfold isCCW_fuel. rewrite Hsub, bind_ret_l. fold nPts in Hchk, Hu |- *.
    rewrite Hchk. cbv zeta. rewrite Hu, Hscan, bind_ret_l.
    rewrite (proj2 (Z.eqb_neq _ _) Hup).
    rewrite Hany by lia. rewrite bind_ret_l.
    rewrite (getAt_Some _ _ _ Hdl), bind_ret_l.
    replace (if 0 <? i then uint32 (i - 1) else uint32 (nPts - 1))
      with (iDownHi_of nPts i).
    2:{ unfold iDownHi_of. destruct (0 <? i) eqn:E; [apply Z.ltb_lt in E|];
        symmetry; apply uint32_small; lia. }
    rewrite (getAt_Some _ _ _ Hdh), bind_ret_l.
    destruct (equals2D (upHiPt s) dh); [|reflexivity].
    destruct (equals2D (upLowPt s) (upHiPt s) || equals2D dl (upHiPt s)
              || equals2D (upLowPt s) dl); reflexivity.
  - split; eapply Hin; eassumption.
  - exact Hoff.
  - intros Hclosed. destruct Hbefore as [Hsame|(c & Hc & Hlevel)].
    + destruct (Z.eq_dec (iUpHi s) nPts) as [Hlast|Hlast].
      * (* the high point is the closing point; [downHiPt] is the first point *)
        rewrite Hlast, Z.mod_same in Hsame by lia. rewrite Hsame in Hdh.
        unfold isClosed in Hclosed. fold nPts in Hclosed.
        rewrite Hdh, <- Hlast, Hhi in Hclosed. now apply equals2D_y.
      * rewrite Z.mod_small in Hsame by lia. rewrite Hsame, Hhi in Hdh.
        inversion Hdh; subst dh.
        apply eqb_refl_not_nan. now apply ltb_is_nan_r with (y (upLowPt s)).
    + assert (c = dh) by congruence. now subst c.
Qed.

Lemma isCCW_fuel_flat (fuel : nat) (s : ScanState) :
  scan ring (size ring - 1) = ret s ->
  iUpHi s = 0 ->
  isCCW_fuel orientationIndex fuel ring = ret false.
Proof.
  intros Hscan Hup.
  destruct length_check_passed as (Hsub & Hchk & Hu).
  unfold isCCW_fuel. rewrite Hsub, bind_ret_l, Hchk. cbv zeta.
  rewrite Hu, Hscan, bind_ret_l. now rewrite Hup.
Qed.

Lemma landmark_search_flat (s : ScanState) :
  scan ring (size ring - 1) = ret s ->
  iUpHi s = 0 ->
  landmark_search ring = None.
Proof.
  intros Hscan Hup. unfold landmark_search. rewrite Hscan. unfold ret.
  now rewrite Hup.
Qed.

(** With the landmarks in hand the answer is the cap classification. *)
Lemma isCCW_by_landmarks (lm : Landmarks) :
  landmark_search ring = Some lm ->
  isCCW orientationIndex ring =
    if equals2D (lm_upHiPt lm) (lm_downHiPt lm) then
      if equals2D (lm_upLowPt lm) (lm_upHiPt lm)
         || equals2D (lm_downLowPt lm) (lm_upHiPt lm)
         || equals2D (lm_upLowPt lm) (lm_downLowPt lm)
      then ret false
      else (Val (orientationIndex (lm_upLowPt lm) (lm_upHiPt lm) (lm_downLowPt lm)
                   =? COUNTERCLOCKWISE),
            [(lm_upLowPt lm, lm_upHiPt lm, lm_downLowPt lm)])
    else ret (x (lm_downHiPt lm) - x (lm_upHiPt lm) <? 0)%float.
Proof.
  intros Hlm. destruct scan_completes as [s [Hscan _]].
  destruct (Z.eq_dec (iUpHi s) 0) as [Hup|Hup].
  - rewrite (landmark_search_flat s Hscan Hup) in Hlm. discriminate.
  - destruct (isCCW_fuel_nonflat s Hscan Hup) as (dl & dh & Hl & Hrun & _).
    rewrite Hl in Hlm. inversion Hlm; subst lm; clear Hlm. simpl.
    unfold isCCW. apply Hrun. unfold size. lia.
Qed.

(** A ring that passes the length check gets a boolean, whatever the
    budget above [nPts - 1]. *)
Lemma isCCW_fuel_returns :
  exists b calls, forall fuel, size ring - 2 <= Z.of_nat fuel ->
    isCCW_fuel orientationIndex fuel ring = (Val b, calls).
Proof.
  destruct scan_completes as [s [Hscan _]].
  destruct (Z.eq_dec (iUpHi s) 0) as [Hup|Hup].
  - exists false, []. intros fuel _. now apply isCCW_fuel_flat with s.
  - destruct (isCCW_fuel_nonflat s Hscan Hup) as (dl & dh & _ & Hrun & _).
    destruct (equals2D (upHiPt s) dh);
      [destruct (equals2D (upLowPt s) (upHiPt s) || equals2D dl (upHiPt s)
                 || equals2D (upLowPt s) dl)|];
      eexists; eexists; intros fuel Hfuel; rewrite (Hrun fuel Hfuel);
      reflexivity.
Qed.

Lemma isCCW_returns :
  exists b calls, isCCW orientationIndex ring = (Val b, calls).
Proof.
  destruct isCCW_fuel_returns as (b & calls & H).
  exists b, calls. apply H. unfold size. lia.
Qed.

(** What the search guarantees about its four points. *)
Lemma landmark_search_facts (lm : Landmarks) :
  landmark_search ring = Some lm ->
  (In (lm_upLowPt lm) ring /\ In (lm_upHiPt lm) ring /\
   In (lm_downLowPt lm) ring /\ In (lm_downHiPt lm) ring) /\
  (y (lm_upLowPt lm) <? y (lm_upHiPt lm))%float = true /\
  (y (lm_downLowPt lm) =? y (lm_upHiPt lm))%float = false /\
  (isClosed ring = true ->
   (y (lm_downHiPt lm) =? y (lm_upHiPt lm))%float = true).
Proof.
  intros Hlm. destruct scan_completes as [s [Hscan Hinv]].
  destruct (Z.eq_dec (iUpHi s) 0) as [Hup|Hup].
  - rewrite (landmark_search_flat s Hscan Hup) in Hlm. discriminate.
  - destruct (isCCW_fuel_nonflat s Hscan Hup)
      as (dl & dh & Hl & _ & [Hdl Hdh] & Hoff & Hlevel).
    rewrite Hl in Hlm. inversion Hlm; subst lm; clear Hlm. simpl.
    destruct Hinv as [_ [[H0 _]|(Hr & Hhi & Hlo & Hlt)]]; [contradiction|].
    assert (Hin : forall j c, at_index ring j = Some c -> In c ring).
    { intros j c Hj. unfold at_index in Hj. destruct (j <? 0); [discriminate|].
      eapply nth_error_In; eassumption. }
    repeat split; try assumption; eapply Hin; eassumption.
Qed.

(** The apex never coincides with a flank: of the three tests of line 117
    only [upLowPt.equals2D(downLowPt)] can succeed. *)
Lemma landmarks_off_apex (lm : Landmarks) :
  landmark_search ring = Some lm ->
  equals2D (lm_upLowPt lm) (lm_upHiPt lm) = false /\
  equals2D (lm_downLowPt lm) (lm_upHiPt lm) = false.
Proof.
  intros Hlm.
  destruct (landmark_search_facts lm Hlm) as (_ & Hlt & Hoff & _).
  apply ltb_eqb_false in Hlt. split.
  - destruct (equals2D (lm_upLowPt lm) (lm_upHiPt lm)) eqn:E; [|reflexivity].
    apply equals2D_y in E. congruence.
  - destruct (equals2D (lm_downLowPt lm) (lm_upHiPt lm)) eqn:E; [|reflexivity].
    apply equals2D_y in E. congruence.
Qed.

(** A closed ring all of whose points coincide with one of two points is
    answered false, without a call to the collaborator: it is flat, or its
    cap has the configuration A-B-A of line 117. *)
Lemma isCCW_two_point_ring (a b : Coordinate) :
  isClosed ring = true ->
  covered_by ring a b = true ->
  isCCW orientationIndex ring = (Val false, []).
Proof.
  intros Hclosed Hcov.
  destruct scan_completes as [s [Hscan _]].
  destruct (Z.eq_dec (iUpHi s) 0) as [Hup|Hup].
  { unfold isCCW. now apply isCCW_fuel_flat with s. }
  destruct (isCCW_fuel_nonflat s Hscan Hup) as (dl & dh & Hl & _).
  destruct (landmark_search_facts _ Hl)
    as ((Hlo & Hhi & Hdl & Hdh) & Hlt & Hoff & Hlevel).
  simpl in *. specialize (Hlevel Hclosed).
  rewrite (isCCW_by_landmarks _ Hl). simpl.
  assert (Hcase : forall c, In c ring ->
            equals2D c a = true \/ equals2D c b = true).
  { intros c Hc. unfold covered_by in Hcov.
    rewrite forallb_forall in Hcov. apply orb_true_iff. now apply Hcov. }
  (* two points off the level of a third coincide *)
  assert (Hpair : forall p q h, In p ring -> In q ring -> In h ring ->
            (y p =? y h)%float = false -> (y q =? y h)%float = false ->
            equals2D p q = true).
  { intros p q h Hp Hq Hh Hph Hqh.
    assert (Hno : forall u v w, equals2D u w = true -> equals2D v w = true ->
              (y u =? y v)%float = true).
    { intros u v w Hu Hv. apply equals2D_y.
      eapply equals2D_trans; [exact Hu|now apply equals2D_sym]. }
    destruct (Hcase p Hp) as [Pa|Pb], (Hcase q Hq) as [Qa|Qb],
             (Hcase h Hh) as [Ha|Hb];
      try (eapply equals2D_trans; [eassumption|now apply equals2D_sym]);
      try (rewrite (Hno p h a) in Hph by assumption; discriminate);
      try (rewrite (Hno p h b) in Hph by assumption; discriminate);
      try (rewrite (Hno q h a) in Hqh by assumption; discriminate);
      rewrite (Hno q h b) in Hqh by assumption; discriminate. }
  pose proof (ltb_eqb_false _ _ Hlt) as Hlo_hi.
  assert (Hhi_lo : (y (upHiPt s) =? y (upLowPt s))%float = false).
  { destruct (y (upHiPt s) =? y (upLowPt s))%float eqn:E; [|reflexivity].
    apply eqb_sym in E. congruence. }
  assert (Hdh_lo : (y dh =? y (upLowPt s))%float = false).
  { destruct (y dh =? y (upLowPt s))%float eqn:E; [|reflexivity].
    apply eqb_sym in E. rewrite (eqb_trans _ _ _ E Hlevel) in Hlo_hi.
    discriminate. }
  rewrite (Hpair (upHiPt s) dh (upLowPt s)) by assumption.
  rewrite (Hpair (upLowPt s) dl (upHiPt s)) by assumption.
  now rewrite orb_true_r.
Qed.

End IsCCW.

(** A ring of fewer than 4 points is refused at line 50. *)
Lemma isCCW_fuel_too_few_points
  (orientationIndex : Coordinate -> Coordinate -> Coordinate -> Z)
  (fuel : nat) (ring : CoordinateSequence) :
  size ring < 4 ->
  isCCW_fuel orientationIndex fuel ring =
  throw (IllegalArgumentException
    "Ring has fewer than 4 points, so orientation cannot be determined").
Proof.
  intros Hlt. assert (0 <= size ring) by (unfold size; lia).
  unfold isCCW_fuel.
  rewrite static_cast_int_small by (unfold INT_MIN, INT_MAX; lia).
  rewrite int_sub_in_range by (unfold INT_MIN, INT_MAX; lia).
  rewrite bind_ret_l.
  now rewrite (proj2 (Z.ltb_lt (size ring - 1) 3)) by lia.
Qed.

(** While no vertex ends a qualifying upward step the scan keeps its
    sentinel [iUpHi = 0]. *)
Lemma scan_prefix_no_rise (ring : CoordinateSequence) (k : nat) :
  Z.of_nat k < size ring -> size ring <= 2 ^ 32 ->
  (forall i, 1 <= i <= Z.of_nat k -> rising_to_high ring i = false) ->
  exists s, scan_prefix ring k = ret s /\ iUpHi s = 0 /\
            scan_inv ring (Z.of_nat k) s.
Proof.
  intros Hk Hsz. induction k as [|k IH]; intros Hflat.
  - destruct (scan_prefix_inv ring 0 Hk Hsz) as [s [Hs Hinv]].
    exists s. repeat split; try assumption; try apply Hinv.
    destruct Hinv as [_ [[H0 _]|[Hr _]]]; [exact H0|simpl in Hr; lia].
  - destruct IH as (s & Hs & Hup & Hinv); [lia|intros i Hi; apply Hflat; lia|].
    destruct (at_index_in_range ring (Z.of_nat k)) as [prev Hprev]; [lia|].
    destruct (at_index_in_range ring (Z.of_nat k + 1)) as [cur Hcur]; [lia|].
    assert (Hguard : (prevY s <? y cur)%float && (y (upHiPt s) <=? y cur)%float
                     = false).
    { specialize (Hflat (Z.of_nat k + 1) ltac:(lia)).
      unfold rising_to_high, running_max_y in Hflat.
      replace (Z.of_nat k + 1 - 1) with (Z.of_nat k) in Hflat by lia.
      rewrite Nat2Z.id, Hs, Hprev, Hcur in Hflat. unfold ret in Hflat.
      destruct Hinv as [[c [Hc Hy]] _].
      assert (c = prev) by congruence. subst c. now rewrite Hy. }
    rewrite scan_prefix_S by lia. rewrite Hs, bind_ret_l.
    replace (Z.of_nat k) with (Z.of_nat k + 1 - 1) in Hprev, Hinv by lia.
    rewrite (scan_body_eq _ _ s prev cur) by (assumption || lia).
    pose proof (scan_inv_step ring (Z.of_nat k + 1) s prev cur ltac:(lia)
                Hprev Hcur Hinv) as Hstep.
    rewrite Hguard in *. eexists. split; [reflexivity|]. split; [exact Hup|].
    now replace (Z.of_nat (S k)) with (Z.of_nat k + 1) by lia.
Qed.

Lemma scan_no_rise (ring : CoordinateSequence) :
  4 <= size ring -> fits_int ring ->
  (forall i, 1 <= i <= size ring - 1 -> rising_to_high ring i = false) ->
  exists s, scan ring (size ring - 1) = ret s /\ iUpHi s = 0.
Proof.
  intros Hsize Hfits Hflat. unfold fits_int, INT_MAX in Hfits.
  destruct (scan_prefix_no_rise ring (Z.to_nat (size ring - 1)))
    as (s & Hs & Hup & _); [lia|lia| |now exists s].
  intros i Hi. apply Hflat. lia.
Qed.

(** A ring without any upward step, such as one whose points all share one
    y, has no qualifying step. *)
Lemma rising_to_high_level (ring : CoordinateSequence) (i : Z) :
  (forall prev cur, at_index ring (i - 1) = Some prev ->
                    at_index ring i = Some cur ->
                    (y prev <? y cur)%float = false) ->
  rising_to_high ring i = false.
Proof.
  intros H. unfold rising_to_high.
  destruct (at_index ring (i - 1)) as [prev|]; [|reflexivity].
  destruct (at_index ring i) as [cur|]; [|reflexivity].
  destruct (running_max_y ring i); [|reflexivity].
  now rewrite (H prev cur).
Qed.

Lemma isCCW_level_ring
  (orientationIndex : Coordinate -> Coordinate -> Coordinate -> Z)
  (ring : CoordinateSequence) :
  4 <= size ring -> fits_int ring ->
  (forall c c', In c ring -> In c' ring -> (y c <? y c')%float = false) ->
  isCCW orientationIndex ring = (Val false, []).
Proof.
  intros Hsize Hfits Hlevel.
  destruct (scan_no_rise ring Hsize Hfits) as (s & Hs & Hup).
  - intros i _. apply rising_to_high_level. intros prev cur Hp Hc.
    unfold at_index in Hp, Hc.
    destruct (i - 1 <? 0); [discriminate|]. destruct (i <? 0); [discriminate|].
    apply Hlevel; eapply nth_error_In; eassumption.
  - unfold isCCW. now apply isCCW_fuel_flat with s.
Qed.

(** Closed facts about the sample rings are settled by evaluation. *)
Ltac by_evaluation :=
  vm_compute; first [reflexivity | discriminate | intro; discriminate].

(** The collaborator of the examples on the triangle's cap, and the
    answer of [isCCW] that follows from it. *)
Example orientationIndex_triangle_cap :
  CGAlgorithmsDD.orientationIndex (pt 2 0) (pt 1 1) (pt 0 0) = COUNTERCLOCKWISE /\
  CGAlgorithmsDD.orientationIndex (pt 1 1) (pt 2 0) (pt 0 0) = CLOCKWISE /\
  CGAlgorithmsDD.orientationIndex (pt 0 0) (pt 1 1) (pt 2 2) = COLLINEAR.
Proof. repeat split; vm_compute; reflexivity. Qed.

Example isCCW_triangle :
  isCCW CGAlgorithmsDD.orientationIndex triangle =
  (Val true, [(pt 2 0, pt 1 1, pt 0 0)]).
Proof. vm_compute. reflexivity. Qed.

(** * The claims *)

(** C7: on the unit square traversed (0,0), (1,0), (1,1), (0,1), (0,0)
    [isCCW] returns true, and on the reverse traversal (0,0), (0,1), (1,1),
    (1,0), (0,0) it returns false; neither answer depends on the
    orientation-index collaborator, which is not called. *)
Theorem isCCW_unit_square
  (orientationIndex : Coordinate -> Coordinate -> Coordinate -> Z) :
  isCCW orientationIndex unit_square = (Val true, []) /\
  isCCW orientationIndex unit_square_reversed = (Val false, []).
Proof. split; vm_compute; reflexivity. Qed.

Section CapClassification.

Variable orientationIndex : Coordinate -> Coordinate -> Coordinate -> Z.
Variable ring : CoordinateSequence.
Variable lm : Landmarks.

Hypothesis Hsize : 4 <= size ring.
Hypothesis Hfits : fits_int ring.
(** The ring is not flat and the search has produced its four points. *)
Hypothesis Hsearch : landmark_search ring = Some lm.

(** C1: for a ring of at least 4 points that is not flat, whose landmark
    search gives [upHiPt] equal to [downHiPt] (pointed cap) with none of
    the degeneracies [upLowPt = upHiPt], [downLowPt = upHiPt],
    [upLowPt = downLowPt], [isCCW] returns a boolean that is true exactly
    when [index(upLowPt, upHiPt, downLowPt)] is COUNTERCLOCKWISE (+1);
    that call is the only one made to the collaborator. *)
Theorem isCCW_pointed_cap :
  equals2D (lm_upHiPt lm) (lm_downHiPt lm) = true ->
  equals2D (lm_upLowPt lm) (lm_upHiPt lm) = false ->
  equals2D (lm_downLowPt lm) (lm_upHiPt lm) = false ->
  equals2D (lm_upLowPt lm) (lm_downLowPt lm) = false ->
  exists b,
    isCCW orientationIndex ring =
      (Val b, [(lm_upLowPt lm, lm_upHiPt lm, lm_downLowPt lm)]) /\
    (b = true <->
     orientationIndex (lm_upLowPt lm) (lm_upHiPt lm) (lm_downLowPt lm)
     = COUNTERCLOCKWISE).
Proof.
  intros Hcap H1 H2 H3.
  rewrite (isCCW_by_landmarks orientationIndex ring Hsize Hfits lm Hsearch).
  rewrite Hcap, H1, H2, H3. simpl. eexists. split; [reflexivity|].
  apply Z.eqb_eq.
Qed.

(** C2: for a ring of at least 4 points that is not flat, whose landmark
    search gives [upHiPt] different from [downHiPt] (flat cap), [isCCW]
    returns true exactly when [downHiPt.x - upHiPt.x < 0], and the
    orientation-index predicate is not called. *)
Theorem isCCW_flat_cap :
  equals2D (lm_upHiPt lm) (lm_downHiPt lm) = false ->
  exists b,
    isCCW orientationIndex ring = (Val b, []) /\
    (b = true <-> (x (lm_downHiPt lm) - x (lm_upHiPt lm) <? 0)%float = true).
Proof.
  intros Hcap.
  rewrite (isCCW_by_landmarks orientationIndex ring Hsize Hfits lm Hsearch).
  rewrite Hcap. eexists. split; [reflexivity|]. tauto.
Qed.

(** C6: for a ring of at least 4 points that reaches the pointed-cap branch
    ([upHiPt] equals [downHiPt]) with [upLowPt] equal to [upHiPt], or
    [downLowPt] equal to [upHiPt], or [upLowPt] equal to [downLowPt],
    [isCCW] returns false; nothing is thrown and the collaborator is not
    called. *)
Theorem isCCW_degenerate_cap :
  equals2D (lm_upHiPt lm) (lm_downHiPt lm) = true ->
  equals2D (lm_upLowPt lm) (lm_upHiPt lm) = true \/
  equals2D (lm_downLowPt lm) (lm_upHiPt lm) = true \/
  equals2D (lm_upLowPt lm) (lm_downLowPt lm) = true ->
  isCCW orientationIndex ring = (Val false, []).
Proof.
  intros Hcap Hdeg.
  rewrite (isCCW_by_landmarks orientationIndex ring Hsize Hfits lm Hsearch).
  rewrite Hcap.
  replace (equals2D (lm_upLowPt lm) (lm_upHiPt lm)
           || equals2D (lm_downLowPt lm) (lm_upHiPt lm)
           || equals2D (lm_upLowPt lm) (lm_downLowPt lm)) with true;
    [reflexivity|].
  symmetry. rewrite !orb_true_iff. tauto.
Qed.

End CapClassification.

Lemma isCCW_pointed_cap_witness :
  let lm := mkLandmarks (pt 2 0) (pt 1 1) (pt 0 0) (pt 1 1) in
  (4 <= size triangle /\ fits_int triangle /\
   landmark_search triangle = Some lm) /\
  exists b,
    isCCW CGAlgorithmsDD.orientationIndex triangle =
      (Val b, [(lm_upLowPt lm, lm_upHiPt lm, lm_downLowPt lm)]) /\
    (b = true <->
     CGAlgorithmsDD.orientationIndex (lm_upLowPt lm) (lm_upHiPt lm) (lm_downLowPt lm)
     = COUNTERCLOCKWISE).
Proof.
  intros lm. split.
  - repeat split; by_evaluation.
  - apply (isCCW_pointed_cap CGAlgorithmsDD.orientationIndex triangle lm);
      by_evaluation.
Defined.

Lemma isCCW_flat_cap_witness :
  let lm := mkLandmarks (pt 2 0) (pt 2 1) (pt 0 0) (pt 0 1) in
  (4 <= size flat_top /\ fits_int flat_top /\
   landmark_search flat_top = Some lm /\
   equals2D (lm_upHiPt lm) (lm_downHiPt lm) = false) /\
  exists b,
    isCCW CGAlgorithmsDD.orientationIndex flat_top = (Val b, []) /\
    (b = true <-> (x (lm_downHiPt lm) - x (lm_upHiPt lm) <? 0)%float = true).
Proof.
  intros lm. split.
  - repeat split; by_evaluation.
  - apply (isCCW_flat_cap CGAlgorithmsDD.orientationIndex flat_top lm);
      by_evaluation.
Defined.

Lemma isCCW_degenerate_cap_witness :
  let lm := mkLandmarks (pt 0 0) (pt 1 1) (pt 0 0) (pt 1 1) in
  (4 <= size back_and_forth /\ fits_int back_and_forth /\
   landmark_search back_and_forth = Some lm /\
   equals2D (lm_upLowPt lm) (lm_downLowPt lm) = true) /\
  isCCW CGAlgorithmsDD.orientationIndex back_and_forth = (Val false, []).
Proof.
  intros lm. split.
  - repeat split; by_evaluation.
  - apply (isCCW_degenerate_cap CGAlgorithmsDD.orientationIndex back_and_forth lm);
      try by_evaluation.
    right; right. by_evaluation.
Defined.

(** C3: for a ring of at least 4 points in which no vertex [i] in 1..N-1
    has [y(i) > y(i-1)] together with [y(i) >=] the running maximum y, the
    scan ends with its sentinel [iUpHi = 0] and [isCCW] returns false; no
    error is raised.  (A ring whose points all share one y is such a ring:
    [rising_to_high_level], [isCCW_level_ring].) *)
Theorem isCCW_flat_ring
  (orientationIndex : Coordinate -> Coordinate -> Coordinate -> Z)
  (ring : CoordinateSequence) :
  4 <= size ring -> fits_int ring ->
  (forall i, 1 <= i <= size ring - 1 -> rising_to_high ring i = false) ->
  (exists s, scan ring (size ring - 1) = ret s /\ iUpHi s = 0) /\
  isCCW orientationIndex ring = (Val false, []).
Proof.
  intros Hsize Hfits Hflat.
  destruct (scan_no_rise ring Hsize Hfits Hflat) as (s & Hs & Hup).
  split; [now exists s|].
  unfold isCCW. now apply isCCW_fuel_flat with s.
Qed.

Lemma isCCW_flat_ring_witness :
  (4 <= size flat_ring /\ fits_int flat_ring /\
   forall i, 1 <= i <= size flat_ring - 1 -> rising_to_high flat_ring i = false) /\
  (exists s, scan flat_ring (size flat_ring - 1) = ret s /\ iUpHi s = 0) /\
  isCCW CGAlgorithmsDD.orientationIndex flat_ring = (Val false, []).
Proof.
  assert (Hflat : forall i, 1 <= i <= size flat_ring - 1 ->
                            rising_to_high flat_ring i = false).
  { intros i Hi. change (size flat_ring - 1) with 3 in Hi.
    assert (Hcases : i = 1 \/ i = 2 \/ i = 3) by lia.
    destruct Hcases as [->|[->| ->]]; vm_compute; reflexivity. }
  split.
  - repeat split; [by_evaluation | by_evaluation | exact Hflat].
  - apply (isCCW_flat_ring CGAlgorithmsDD.orientationIndex flat_ring);
      [by_evaluation | by_evaluation | exact Hflat].
Defined.

(** C4: [isCCW] raises IllegalArgumentException, and returns no boolean,
    exactly when the ring has fewer than 4 points ([size - 1 < 3]); a ring
    of 4 or more points is not refused.  The point count is one that type
    [int] represents. *)
Theorem isCCW_throws_iff_too_few_points
  (orientationIndex : Coordinate -> Coordinate -> Coordinate -> Z)
  (ring : CoordinateSequence) :
  fits_int ring ->
  ((exists msg, isCCW orientationIndex ring = throw (IllegalArgumentException msg))
   <-> size ring < 4).
Proof.
  intros Hfits. split.
  - intros [msg Hthrow].
    destruct (Z_lt_ge_dec (size ring) 4) as [Hlt|Hge]; [exact Hlt|].
    destruct (isCCW_returns orientationIndex ring ltac:(lia) Hfits)
      as (b & calls & Hret).
    rewrite Hret in Hthrow. discriminate.
  - intros Hlt. eexists. unfold isCCW.
    now apply isCCW_fuel_too_few_points.
Qed.

Lemma isCCW_throws_iff_too_few_points_witness :
  fits_int two_points /\
  ((exists msg, isCCW CGAlgorithmsDD.orientationIndex two_points
                = throw (IllegalArgumentException msg))
   <-> size two_points < 4).
Proof.
  split.
  - by_evaluation.
  - apply (isCCW_throws_iff_too_few_points CGAlgorithmsDD.orientationIndex
             two_points).
    by_evaluation.
Defined.

(** C5, as the source has it: a ring is refused on its point count alone.
    When the count N gives [N - 1 < 3], [isCCW] raises
    IllegalArgumentException and returns no boolean.  Every ring with
    [N - 1 >= 3] is answered with a boolean, however few of its points are
    distinct; a closed one without three distinct points (each point
    coincides with one of two) is answered false, and the collaborator is
    not called. *)
Theorem isCCW_refuses_by_count_only
  (orientationIndex : Coordinate -> Coordinate -> Coordinate -> Z)
  (ring : CoordinateSequence) :
  fits_int ring ->
  (size ring - 1 < 3 /\
   exists msg, isCCW orientationIndex ring = throw (IllegalArgumentException msg))
  \/
  (3 <= size ring - 1 /\
   exists b calls,
     isCCW orientationIndex ring = (Val b, calls) /\
     (forall p q, isClosed ring = true -> covered_by ring p q = true ->
                  b = false /\ calls = [])).
Proof.
  intros Hfits.
  destruct (Z_lt_ge_dec (size ring) 4) as [Hlt|Hge].
  - left. split; [lia|]. eexists. unfold isCCW.
    now apply isCCW_fuel_too_few_points.
  - right. split; [lia|].
    destruct (isCCW_returns orientationIndex ring ltac:(lia) Hfits)
      as (b & calls & Hret).
    exists b, calls. split; [exact Hret|].
    intros p q Hclosed Hcov.
    rewrite (isCCW_two_point_ring orientationIndex ring ltac:(lia) Hfits
               p q Hclosed Hcov) in Hret.
    inversion Hret. now split.
Qed.

Lemma isCCW_refuses_by_count_only_witness :
  let ring := back_and_forth in
  fits_int ring /\
  ((size ring - 1 < 3 /\
    exists msg, isCCW CGAlgorithmsDD.orientationIndex ring
                = throw (IllegalArgumentException msg))
   \/
   (3 <= size ring - 1 /\
    exists b calls,
      isCCW CGAlgorithmsDD.orientationIndex ring = (Val b, calls) /\
      (forall p q, isClosed ring = true -> covered_by ring p q = true ->
                   b = false /\ calls = []))).
Proof.
  intros ring. split.
  - by_evaluation.
  - apply (isCCW_refuses_by_count_only CGAlgorithmsDD.orientationIndex ring).
    by_evaluation.
Defined.

(** C5 as stated fails: the closed ring (0,0), (1,1), (0,0), (1,1), (0,0)
    has 5 points of which only 2 are distinct, and [isCCW] answers false
    instead of raising an error. *)
Lemma isCCW_two_distinct_points_not_refused :
  size back_and_forth = 5 /\
  isClosed back_and_forth = true /\
  List.length (distinct2D back_and_forth) = 2%nat /\
  covered_by back_and_forth (pt 0 0) (pt 1 1) = true /\
  isCCW CGAlgorithmsDD.orientationIndex back_and_forth = (Val false, []).
Proof. repeat split; vm_compute; reflexivity. Qed.

(** C8: [isCCW] terminates on every ring of at least 4 points (closed or
    not): it returns a boolean as soon as the [do ... while] loop is given
    [nPts - 1] iterations.  In particular, whenever the scan has found
    [iUpHi <> 0], the search for the falling point ends within that many
    iterations, also when [iUpHi = nPts] and the guard
    [iDownLow != iUpHi] cannot fire: it ends before it is back at [iUpHi],
    at an index below [nPts] whose vertex is off the level of [upHiPt]. *)
Theorem isCCW_terminates
  (orientationIndex : Coordinate -> Coordinate -> Coordinate -> Z)
  (ring : CoordinateSequence) :
  4 <= size ring -> fits_int ring ->
  (exists b calls, forall fuel, size ring - 2 <= Z.of_nat fuel ->
     isCCW_fuel orientationIndex fuel ring = (Val b, calls)) /\
  (forall s, scan ring (size ring - 1) = ret s -> iUpHi s <> 0 ->
     exists i, 0 <= i < size ring - 1 /\ i <> iUpHi s /\
       (exists c, at_index ring i = Some c /\
                  (y c =? y (upHiPt s))%float = false) /\
       forall fuel, size ring - 2 <= Z.of_nat fuel ->
         downLow_loop fuel ring (size ring - 1) (iUpHi s) (upHiPt s) (iUpHi s)
         = ret i).
Proof.
  intros Hsize Hfits. split.
  - now apply isCCW_fuel_returns.
  - intros s Hscan Hup.
    destruct (scan_completes ring Hsize Hfits) as [s' [Hs' Hinv]].
    assert (s' = s) by (rewrite Hscan in Hs'; inversion Hs'; reflexivity).
    subst s'.
    destruct (downLow_search_terminates ring Hsize Hfits s Hinv Hup)
      as (i & Hi & Hoff & Hexit & _ & Hrun).
    now exists i.
Qed.

Lemma isCCW_terminates_witness :
  let ring := high_at_closing_point in
  (4 <= size ring /\ fits_int ring) /\
  (* here the scan ends with [iUpHi = nPts] *)
  scan ring (size ring - 1) = ret (mkScanState (pt 0 1) 1 (pt 0.5 0) 3) /\
  (exists b calls, forall fuel, size ring - 2 <= Z.of_nat fuel ->
     isCCW_fuel CGAlgorithmsDD.orientationIndex fuel ring = (Val b, calls)) /\
  (forall s, scan ring (size ring - 1) = ret s -> iUpHi s <> 0 ->
     exists i, 0 <= i < size ring - 1 /\ i <> iUpHi s /\
       (exists c, at_index ring i = Some c /\
                  (y c =? y (upHiPt s))%float = false) /\
       forall fuel, size ring - 2 <= Z.of_nat fuel ->
         downLow_loop fuel ring (size ring - 1) (iUpHi s) (upHiPt s) (iUpHi s)
         = ret i).
Proof.
  intros ring. split; [split; by_evaluation|]. split; [by_evaluation|].
  apply (isCCW_terminates CGAlgorithmsDD.orientationIndex ring); by_evaluation.
Defined.

(** The loop budget is the only thing the embedding adds to the program,
    and it does not matter: whatever budgets two runs on the same ring are
    given, if both end they end the same way, with the same boolean or the
    same error, after the same calls to the collaborator. *)
Lemma isCCW_budget_independent
  (orientationIndex : Coordinate -> Coordinate -> Coordinate -> Z)
  (ring : CoordinateSequence) (r1 r2 : M bool) :
  ends_with orientationIndex ring r1 ->
  ends_with orientationIndex ring r2 ->
  r1 = r2.
Proof.
  intros (f1 & E1 & N1) (f2 & E2 & N2). subst r1 r2.
  destruct (Nat.le_ge_cases f1 f2) as [Hle|Hle].
  - symmetry. now apply isCCW_fuel_more_fuel.
  - now apply isCCW_fuel_more_fuel.
Qed.

(** C10: for a ring of at least 4 points (closed or not), when the scan ends
    with [iUpHi <> 0] the variable [upLowPt] holds the vertex of the ring
    just before [iUpHi], not the null point it was initialised to, and
    [upLowPt.y < upHiPt.y] strictly; hence every call
    [index(upLowPt, upHiPt, downLowPt)] that [isCCW] makes has this point,
    which is not null, as its first argument. *)
Theorem upLowPt_assigned
  (orientationIndex : Coordinate -> Coordinate -> Coordinate -> Z)
  (ring : CoordinateSequence) (s : ScanState) :
  4 <= size ring -> fits_int ring ->
  scan ring (size ring - 1) = ret s ->
  iUpHi s <> 0 ->
  (isNull (upLowPt s) = false /\
   at_index ring (iUpHi s - 1) = Some (upLowPt s) /\
   (y (upLowPt s) <? y (upHiPt s))%float = true) /\
  (forall p1 p2 q, In (p1, p2, q) (snd (isCCW orientationIndex ring)) ->
     p1 = upLowPt s /\ isNull p1 = false).
Proof.
  intros Hsize Hfits Hscan Hup.
  destruct (scan_completes ring Hsize Hfits) as [s' [Hs' Hinv]].
  assert (s' = s) by (rewrite Hscan in Hs'; inversion Hs'; reflexivity).
  subst s'. destruct Hinv as [_ [[H0 _]|(Hr & Hhi & Hlo & Hlt)]]; [contradiction|].
  assert (Hnull : isNull (upLowPt s) = false).
  { unfold isNull. rewrite (ltb_is_nan_l _ _ Hlt).
    now rewrite andb_false_r. }
  split; [now repeat split|].
  destruct (isCCW_fuel_nonflat orientationIndex ring Hsize Hfits s Hscan Hup)
    as (dl & dh & _ & Hrun & _).
  unfold isCCW. rewrite Hrun by (unfold size; lia).
  intros p1 p2 q.
  destruct (equals2D (upHiPt s) dh);
    [destruct (equals2D (upLowPt s) (upHiPt s) || equals2D dl (upHiPt s)
               || equals2D (upLowPt s) dl)|];
    simpl; intros Hin; try contradiction.
  destruct Hin as [Hin|[]]. inversion Hin; subst. now split.
Qed.

Lemma upLowPt_assigned_witness :
  let s := mkScanState (pt 1 1) 0 (pt 2 0) 2 in
  (4 <= size triangle /\ fits_int triangle /\
   scan triangle (size triangle - 1) = ret s /\ iUpHi s <> 0) /\
  (isNull (upLowPt s) = false /\
   at_index triangle (iUpHi s - 1) = Some (upLowPt s) /\
   (y (upLowPt s) <? y (upHiPt s))%float = true) /\
  (forall p1 p2 q,
     In (p1, p2, q) (snd (isCCW CGAlgorithmsDD.orientationIndex triangle)) ->
     p1 = upLowPt s /\ isNull p1 = false).
Proof.
  intros s. split.
  - repeat split; by_evaluation.
  - apply (upLowPt_assigned CGAlgorithmsDD.orientationIndex triangle s);
      by_evaluation.
Defined.

(** * Further properties of the scan and of the cap *)

(** ** The order of binary64 numbers *)

Lemma SFcompare_key (f g : spec_float) :
  f <> S754_nan -> g <> S754_nan ->
  match SFcompare f g with
  | Some Lt => lex_lt (sf_key f) (sf_key g)
  | Some Eq => sf_key f = sf_key g
  | Some Gt => lex_lt (sf_key g) (sf_key f)
  | None => False
  end.
Proof.
  intros Hf Hg.
  destruct f as [s|s| |s m e], g as [s'|s'| |s' m' e']; try congruence;
    simpl; try (destruct s); try (destruct s'); simpl; try lia; try reflexivity.
  all: destruct (Z.compare_spec e e'); simpl; try lia.
  all: subst; change (Pos.compare_cont Eq m m') with (m ?= m')%positive;
       destruct (Pos.compare_spec m m'); simpl; subst; try reflexivity; try lia.
Qed.

Lemma Prim2SF_not_nan (a : float) : is_nan a = false -> Prim2SF a <> S754_nan.
Proof.
  intros H. unfold Prim2SF. rewrite H.
  destruct (is_zero a); [discriminate|].
  destruct (is_infinity a); [discriminate|].
  destruct (Z.frexp a) as [r e].
  destruct (shr_fexp prec emax _ _ _) as [shr e'].
  destruct (shr_m shr); discriminate.
Qed.

Lemma lex_lt_irrefl (k : Z * Z * Z) : ~ lex_lt k k.
Proof. destruct k as [[k1 k2] k3]. unfold lex_lt. lia. Qed.

Lemma lex_lt_asym (k k' : Z * Z * Z) : lex_lt k k' -> ~ lex_lt k' k.
Proof.
  destruct k as [[k1 k2] k3], k' as [[l1 l2] l3]. unfold lex_lt. lia.
Qed.

Lemma lex_lt_trans (k k' k'' : Z * Z * Z) :
  lex_lt k k' -> lex_lt k' k'' -> lex_lt k k''.
Proof.
  destruct k as [[k1 k2] k3], k' as [[l1 l2] l3], k'' as [[m1 m2] m3].
  unfold lex_lt. lia.
Qed.

Lemma lex_lt_total (k k' : Z * Z * Z) : lex_lt k k' \/ k = k' \/ lex_lt k' k.
Proof.
  destruct k as [[k1 k2] k3], k' as [[l1 l2] l3]. unfold lex_lt.
  destruct (Z.lt_trichotomy k1 l1) as [?|[?|?]];
    destruct (Z.lt_trichotomy k2 l2) as [?|[?|?]];
    destruct (Z.lt_trichotomy k3 l3) as [?|[?|?]]; subst; auto; try lia.
Qed.

Section FloatOrder.

Variables a b : float.
Hypothesis Ha : is_nan a = false.
Hypothesis Hb : is_nan b = false.

Lemma ltb_key : (a <? b)%float = true <-> lex_lt (float_key a) (float_key b).
Proof.
  rewrite ltb_spec. unfold SFltb, float_key.
  pose proof (SFcompare_key _ _ (Prim2SF_not_nan a Ha) (Prim2SF_not_nan b Hb)) as H.
  destruct (SFcompare (Prim2SF a) (Prim2SF b)) as [[]|]; [| | |contradiction].
  - rewrite H. split; [discriminate|]. intros K. now apply lex_lt_irrefl in K.
  - tauto.
  - split; [discriminate|]. intros K. now apply lex_lt_asym in K.
Qed.

Lemma eqb_key : (a =? b)%float = true <-> float_key a = float_key b.
Proof.
  rewrite eqb_spec. unfold SFeqb, float_key.
  pose proof (SFcompare_key _ _ (Prim2SF_not_nan a Ha) (Prim2SF_not_nan b Hb)) as H.
  destruct (SFcompare (Prim2SF a) (Prim2SF b)) as [[]|]; [| | |contradiction].
  - tauto.
  - split; [discriminate|]. intros K. rewrite K in H. now apply lex_lt_irrefl in H.
  - split; [discriminate|]. intros K. rewrite K in H. now apply lex_lt_irrefl in H.
Qed.

Lemma leb_key :
  (a <=? b)%float = true <->
  lex_lt (float_key a) (float_key b) \/ float_key a = float_key b.
Proof.
  rewrite leb_spec. unfold SFleb, float_key.
  pose proof (SFcompare_key _ _ (Prim2SF_not_nan a Ha) (Prim2SF_not_nan b Hb)) as H.
  destruct (SFcompare (Prim2SF a) (Prim2SF b)) as [[]|]; [| | |contradiction].
  - tauto.
  - tauto.
  - split; [discriminate|]. intros [K|K].
    + now apply lex_lt_asym in K.
    + rewrite K in H. now apply lex_lt_irrefl in H.
Qed.

End FloatOrder.

Lemma leb_is_nan (a b : float) :
  (a <=? b)%float = true -> is_nan a = false /\ is_nan b = false.
Proof.
  rewrite leb_spec. unfold is_nan, SFleb. rewrite !eqb_spec. unfold SFeqb.
  intros H.
  destruct (Prim2SF a) eqn:Ea, (Prim2SF b) eqn:Eb; simpl in H; try discriminate;
    split; now rewrite SFcompare_refl.
Qed.

Lemma leb_refl (a : float) : is_nan a = false -> (a <=? a)%float = true.
Proof. intros Ha. apply leb_key; auto. Qed.

Lemma leb_trans (a b c : float) :
  (a <=? b)%float = true -> (b <=? c)%float = true -> (a <=? c)%float = true.
Proof.
  intros Hab Hbc.
  destruct (leb_is_nan _ _ Hab) as [Ha Hb], (leb_is_nan _ _ Hbc) as [_ Hc].
  apply leb_key in Hab, Hbc; try assumption. apply leb_key; try assumption.
  destruct Hab as [Hab|Hab], Hbc as [Hbc|Hbc].
  - left. eapply lex_lt_trans; eassumption.
  - left. now rewrite <- Hbc.
  - left. now rewrite Hab.
  - right. congruence.
Qed.

Lemma ltb_leb (a b : float) : (a <? b)%float = true -> (a <=? b)%float = true.
Proof.
  intros H. pose proof (ltb_is_nan_l _ _ H). pose proof (ltb_is_nan_r _ _ H).
  apply leb_key; try assumption. left. now apply ltb_key.
Qed.

Lemma eqb_leb (a b : float) : (a =? b)%float = true -> (a <=? b)%float = true.
Proof.
  rewrite eqb_spec, leb_spec. unfold SFeqb, SFleb.
  now destruct (SFcompare (Prim2SF a) (Prim2SF b)) as [[]|].
Qed.

Lemma eqb_ltb_false (a b : float) :
  (a =? b)%float = true -> (a <? b)%float = false.
Proof.
  rewrite eqb_spec, ltb_spec. unfold SFeqb, SFltb.
  now destruct (SFcompare (Prim2SF a) (Prim2SF b)) as [[]|].
Qed.

(** Among numbers, what is not below or equal is above. *)
Lemma leb_false_ltb (a b : float) :
  is_nan a = false -> is_nan b = false ->
  (a <=? b)%float = false -> (b <? a)%float = true.
Proof.
  intros Ha Hb H. apply ltb_key; try assumption.
  destruct (lex_lt_total (float_key a) (float_key b)) as [K|[K|K]];
    [| |exact K].
  - rewrite (proj2 (leb_key a b Ha Hb)) in H by (now left). discriminate.
  - rewrite (proj2 (leb_key a b Ha Hb)) in H by (now right). discriminate.
Qed.

Lemma ltb_false_leb (a b : float) :
  is_nan a = false -> is_nan b = false ->
  (a <? b)%float = false -> (b <=? a)%float = true.
Proof.
  intros Ha Hb H. apply leb_key; try assumption.
  destruct (lex_lt_total (float_key a) (float_key b)) as [K|[K|K]].
  - rewrite (proj2 (ltb_key a b Ha Hb)) in H by assumption. discriminate.
  - now right.
  - now left.
Qed.

Lemma leb_antisym (a b : float) :
  (a <=? b)%float = true -> (b <=? a)%float = true -> (a =? b)%float = true.
Proof.
  intros Hab Hba. destruct (leb_is_nan _ _ Hab) as [Ha Hb].
  apply leb_key in Hab, Hba; try assumption. apply eqb_key; try assumption.
  destruct Hab as [Hab|Hab]; [|exact Hab].
  destruct Hba as [Hba|Hba]; [|now symmetry].
  now apply lex_lt_asym in Hab.
Qed.

Lemma leb_neq_ltb (a b : float) :
  (a <=? b)%float = true -> (a =? b)%float = false -> (a <? b)%float = true.
Proof.
  intros Hab Hne. destruct (leb_is_nan _ _ Hab) as [Ha Hb].
  apply leb_key in Hab; try assumption. apply ltb_key; try assumption.
  destruct Hab as [Hab|Hab]; [exact Hab|].
  rewrite (proj2 (eqb_key a b Ha Hb) Hab) in Hne. discriminate.
Qed.

Lemma leb_ltb_trans (a b c : float) :
  (a <=? b)%float = true -> (b <? c)%float = true -> (a <? c)%float = true.
Proof.
  intros Hab Hbc. destruct (leb_is_nan _ _ Hab) as [Ha Hb].
  pose proof (ltb_is_nan_r _ _ Hbc) as Hc.
  apply leb_key in Hab; try assumption. apply ltb_key in Hbc; try assumption.
  apply ltb_key; try assumption.
  destruct Hab as [Hab|Hab]; [eapply lex_lt_trans; eassumption|now rewrite Hab].
Qed.

Lemma ltb_leb_trans (a b c : float) :
  (a <? b)%float = true -> (b <=? c)%float = true -> (a <? c)%float = true.
Proof.
  intros Hab Hbc. destruct (leb_is_nan _ _ Hbc) as [Hb Hc].
  pose proof (ltb_is_nan_l _ _ Hab) as Ha.
  apply leb_key in Hbc; try assumption. apply ltb_key in Hab; try assumption.
  apply ltb_key; try assumption.
  destruct Hbc as [Hbc|Hbc]; [eapply lex_lt_trans; eassumption|now rewrite <- Hbc].
Qed.

(** ** A rule for the scan loop *)

Lemma at_index_In (ring : CoordinateSequence) (j : Z) (c : Coordinate) :
  at_index ring j = Some c -> In c ring.
Proof.
  unfold at_index. destruct (j <? 0); [discriminate|]. apply nth_error_In.
Qed.

Lemma In_at_index (ring : CoordinateSequence) (c : Coordinate) :
  In c ring -> exists j, 0 <= j < size ring /\ at_index ring j = Some c.
Proof.
  intros Hin. apply In_nth_error in Hin. destruct Hin as [n Hn].
  assert (n < List.length ring)%nat by (apply nth_error_Some; congruence).
  exists (Z.of_nat n). split; [unfold size; lia|].
  unfold at_index. destruct (Z.of_nat n <? 0) eqn:E; [apply Z.ltb_lt in E; lia|].
  now rewrite Nat2Z.id.
Qed.

Lemma numbers_y_In (ring : CoordinateSequence) (c : Coordinate) :
  numbers_y ring = true -> In c ring -> is_nan (y c) = false.
Proof.
  unfold numbers_y. rewrite forallb_forall. intros H Hin.
  apply H in Hin. now destruct (is_nan (y c)).
Qed.

Section ScanRule.

Variable ring : CoordinateSequence.
Variable P : Z -> ScanState -> Prop.

Hypothesis P_init : forall c,
  at_index ring 0 = Some c -> P 0 (mkScanState c (y c) setNull 0).

Hypothesis P_step : forall i s prev cur,
  1 <= i < size ring ->
  at_index ring (i - 1) = Some prev ->
  at_index ring i = Some cur ->
  scan_inv ring (i - 1) s ->
  P (i - 1) s ->
  P i (if (prevY s <? y cur)%float && (y (upHiPt s) <=? y cur)%float
       then mkScanState cur (y cur) prev i
       else mkScanState (upHiPt s) (y cur) (upLowPt s) (iUpHi s)).

(** What holds when the loop starts and is kept by every iteration holds
    when the loop ends. *)
Lemma scan_prefix_rule (k : nat) :
  Z.of_nat k < size ring -> size ring <= 2 ^ 32 ->
  exists s, scan_prefix ring k = ret s /\ scan_inv ring (Z.of_nat k) s /\
            P (Z.of_nat k) s.
Proof.
  intros Hk Hsz. induction k as [|k IH].
  - destruct (at_index_in_range ring 0) as [c Hc]; [lia|].
    exists (mkScanState c (y c) setNull 0). split; [|split].
    + unfold scan_prefix, scan_init.
      rewrite (getAt_Some _ _ _ Hc). now rewrite !bind_ret_l.
    + split; [now exists c|]. now left.
    + now apply P_init.
  - destruct IH as (s & Hs & Hinv & HP); [lia|].
    destruct (at_index_in_range ring (Z.of_nat k)) as [prev Hprev]; [lia|].
    destruct (at_index_in_range ring (Z.of_nat k + 1)) as [cur Hcur]; [lia|].
    rewrite scan_prefix_S by lia. rewrite Hs, bind_ret_l.
    replace (Z.of_nat k) with (Z.of_nat k + 1 - 1) in Hprev, Hinv, HP by lia.
    rewrite (scan_body_eq _ _ s prev cur) by (assumption || lia).
    eexists. split; [reflexivity|].
    replace (Z.of_nat (S k)) with (Z.of_nat k + 1) by lia.
    split; [apply scan_inv_step; (assumption || lia)|].
    apply P_step; (assumption || lia).
Qed.

End ScanRule.

(** ** The high point is a highest point *)

Section ScanTop.

Variable ring : CoordinateSequence.
Hypothesis Hsize : 4 <= size ring.
Hypothesis Hfits : fits_int ring.
Hypothesis Hnum : numbers_y ring = true.

(** After index [k]: no vertex so far is above [upHiPt]; an upward step made
    after [iUpHi] ends strictly below [upHiPt]; and while [iUpHi] is still 0,
    a vertex level with the first one has only had vertices level with the
    first one before it. *)
Lemma scan_prefix_top (k : nat) :
  Z.of_nat k < size ring ->
  exists s, scan_prefix ring k = ret s /\ scan_inv ring (Z.of_nat k) s /\
    (forall j c, 0 <= j <= Z.of_nat k -> at_index ring j = Some c ->
       (y c <=? y (upHiPt s))%float = true) /\
    (forall j p c, iUpHi s < j <= Z.of_nat k ->
       at_index ring (j - 1) = Some p -> at_index ring j = Some c ->
       (y p <? y c)%float = true -> (y c <? y (upHiPt s))%float = true) /\
    (iUpHi s = 0 ->
     forall last, at_index ring (Z.of_nat k) = Some last ->
       (y last =? y (upHiPt s))%float = true ->
       forall j c, 0 <= j <= Z.of_nat k -> at_index ring j = Some c ->
         (y c =? y (upHiPt s))%float = true).
Proof.
  intros Hk. unfold fits_int, INT_MAX in Hfits.
  apply (scan_prefix_rule ring
    (fun k s =>
       (forall j c, 0 <= j <= k -> at_index ring j = Some c ->
          (y c <=? y (upHiPt s))%float = true) /\
       (forall j p c, iUpHi s < j <= k ->
          at_index ring (j - 1) = Some p -> at_index ring j = Some c ->
          (y p <? y c)%float = true -> (y c <? y (upHiPt s))%float = true) /\
       (iUpHi s = 0 ->
        forall last, at_index ring k = Some last ->
          (y last =? y (upHiPt s))%float = true ->
          forall j c, 0 <= j <= k -> at_index ring j = Some c ->
            (y c =? y (upHiPt s))%float = true))); [| |exact Hk|lia].
  - (* entry of the loop *)
    intros c0 Hc0. simpl.
    assert (Hn0 : is_nan (y c0) = false)
      by (eapply numbers_y_In; [exact Hnum|eapply at_index_In; exact Hc0]).
    split; [|split].
    + intros j c Hj Hc. assert (j = 0) by lia. subst j.
      assert (c = c0) by congruence. subst c. now apply leb_refl.
    + intros j p c Hj. lia.
    + intros _ last _ _ j c Hj Hc. assert (j = 0) by lia. subst j.
      assert (c = c0) by congruence. subst c. now apply eqb_refl_not_nan.
  - (* one iteration *)
    intros i s prev cur Hi Hprev Hcur Hinv (Hmax & Hlater & Hlevel).
    assert (Hncur : is_nan (y cur) = false)
      by (eapply numbers_y_In; [exact Hnum|eapply at_index_In; exact Hcur]).
    assert (Hnprev : is_nan (y prev) = false)
      by (eapply numbers_y_In; [exact Hnum|eapply at_index_In; exact Hprev]).
    assert (Hnhi : is_nan (y (upHiPt s)) = false).
    { eapply numbers_y_In; [exact Hnum|].
      destruct Hinv as [_ [(_ & H0 & _)|(_ & H1 & _)]];
        eapply at_index_In; eassumption. }
    assert (HprevY : prevY s = y prev).
    { destruct Hinv as [[c [Hc Hy]] _]. congruence. }
    rewrite HprevY.
    destruct ((y prev <? y cur)%float && (y (upHiPt s) <=? y cur)%float) eqn:G.
    + (* the step is recorded *)
      apply andb_prop in G. destruct G as [Grise Ghigh]. simpl.
      split; [|split].
      * intros j c Hj Hc. destruct (Z.eq_dec j i) as [->|Hne].
        -- assert (c = cur) by congruence. subst c. now apply leb_refl.
        -- eapply leb_trans; [apply (Hmax j c); [lia|exact Hc]|exact Ghigh].
      * intros j p c Hj. lia.
      * intros Hzero. lia.
    + (* the step is not recorded *)
      simpl.
      assert (Hcur_le : (y cur <=? y (upHiPt s))%float = true).
      { apply andb_false_iff in G. destruct G as [G|G].
        - eapply leb_trans; [apply ltb_false_leb; [| |exact G]; assumption|].
          apply (Hmax (i - 1) prev); [lia|exact Hprev].
        - apply ltb_leb. now apply leb_false_ltb. }
      split; [|split].
      * intros j c Hj Hc. destruct (Z.eq_dec j i) as [->|Hne].
        -- assert (c = cur) by congruence. now subst c.
        -- apply (Hmax j c); [lia|exact Hc].
      * intros j p c Hj Hp Hc Hrise. destruct (Z.eq_dec j i) as [->|Hne].
        -- assert (c = cur) by congruence. assert (p = prev) by congruence.
           subst c p. rewrite Hrise in G. simpl in G.
           now apply leb_false_ltb.
        -- apply (Hlater j p c); (assumption || lia).
      * intros Hzero last Hlast Hlast_level j c Hj Hc.
        assert (last = cur) by congruence. subst last.
        destruct (Z.eq_dec j i) as [->|Hne].
        -- assert (c = cur) by congruence. now subst c.
        -- refine (Hlevel Hzero prev Hprev _ j c _ Hc); [|lia].
           assert (Hhigh : (y (upHiPt s) <=? y cur)%float = true)
             by (apply eqb_leb; now apply eqb_sym).
           rewrite Hhigh, andb_true_r in G.
           apply leb_antisym; [apply (Hmax (i - 1) prev); [lia|exact Hprev]|].
           eapply leb_trans; [exact Hhigh|].
           apply ltb_false_leb; assumption.
Qed.

Lemma scan_top (s : ScanState) :
  scan ring (size ring - 1) = ret s ->
  (forall c, In c ring -> (y c <=? y (upHiPt s))%float = true) /\
  (forall j p c, iUpHi s < j <= size ring - 1 ->
     at_index ring (j - 1) = Some p -> at_index ring j = Some c ->
     (y p <? y c)%float = true -> (y c <? y (upHiPt s))%float = true) /\
  (iUpHi s = 0 -> isClosed ring = true ->
   forall c, In c ring -> (y c =? y (upHiPt s))%float = true).
Proof.
  intros Hscan. unfold fits_int, INT_MAX in Hfits.
  destruct (scan_prefix_top (Z.to_nat (size ring - 1)))
    as (s' & Hs' & Hinv & Hmax & Hlater & Hlevel); [lia|].
  unfold scan in Hscan. rewrite Hscan in Hs'. inversion Hs'; subst s'; clear Hs'.
  rewrite Z2Nat.id in * by lia.
  split; [|split].
  - intros c Hin. destruct (In_at_index ring c Hin) as (j & Hj & Hc).
    apply (Hmax j c); [lia|exact Hc].
  - exact Hlater.
  - intros Hzero Hclosed c Hin.
    destruct (In_at_index ring c Hin) as (j & Hj & Hc).
    destruct Hinv as [_ [(_ & Hfirst & _)|(Hr & _)]]; [|lia].
    unfold isClosed in Hclosed. rewrite Hfirst in Hclosed.
    destruct (at_index ring (size ring - 1)) as [last|] eqn:Hlast;
      [|discriminate].
    refine (Hlevel Hzero last eq_refl _ j c _ Hc); [|lia].
    apply eqb_sym. now apply equals2D_y.
Qed.

End ScanTop.

(** ** Where the landmarks lie *)

Lemma landmark_search_indices (ring : CoordinateSequence) (lm : Landmarks) :
  4 <= size ring -> fits_int ring ->
  landmark_search ring = Some lm ->
  exists iUp iDown,
    1 <= iUp <= size ring - 1 /\ 0 <= iDown < size ring - 1 /\ iDown <> iUp /\
    at_index ring (iUp - 1) = Some (lm_upLowPt lm) /\
    at_index ring iUp = Some (lm_upHiPt lm) /\
    at_index ring iDown = Some (lm_downLowPt lm) /\
    at_index ring (iDownHi_of (size ring - 1) iDown) = Some (lm_downHiPt lm) /\
    (forall j p c, iUp < j <= size ring - 1 -> numbers_y ring = true ->
       at_index ring (j - 1) = Some p -> at_index ring j = Some c ->
       (y p <? y c)%float = true -> (y c <? y (lm_upHiPt lm))%float = true) /\
    (iDownHi_of (size ring - 1) iDown = iUp mod (size ring - 1) \/
     (y (lm_downHiPt lm) =? y (lm_upHiPt lm))%float = true).
Proof.
  intros Hsize Hfits Hlm.
  destruct (scan_completes ring Hsize Hfits) as [s [Hscan Hinv]].
  destruct (Z.eq_dec (iUpHi s) 0) as [Hup|Hup].
  { rewrite (landmark_search_flat ring s Hscan Hup) in Hlm. discriminate. }
  destruct (downLow_search_terminates ring Hsize Hfits s Hinv Hup)
    as (i & Hi & Hoff & _ & Hbefore & Hany).
  unfold landmark_search in Hlm. rewrite Hscan in Hlm. unfold ret in Hlm.
  rewrite (proj2 (Z.eqb_neq _ _) Hup) in Hlm.
  rewrite Hany in Hlm by (unfold size; lia). unfold ret in Hlm.
  destruct (at_index ring i) as [dl|] eqn:Hdl; [|discriminate].
  destruct (at_index ring (iDownHi_of (size ring - 1) i)) as [dh|] eqn:Hdh;
    [|discriminate].
  inversion Hlm; subst lm; clear Hlm. simpl.
  destruct Hinv as [_ [[H0 _]|(Hr & Hhi & Hlo & _)]]; [contradiction|].
  exists (iUpHi s), i.
  split; [lia|]. split; [lia|]. split; [exact Hoff|].
  split; [exact Hlo|]. split; [exact Hhi|]. split; [exact Hdl|].
  split; [exact Hdh|]. split.
  - intros j p c Hj Hnum.
    destruct (scan_top ring Hsize Hfits Hnum s Hscan) as (_ & Hlater & _).
    now apply Hlater.
  - destruct Hbefore as [Hsame|(c & Hc & Hlevel)]; [now left|right].
    injection Hc as <-. exact Hlevel.
Qed.

Lemma equals2D_refl (c : Coordinate) : is_point c = true -> equals2D c c = true.
Proof.
  unfold is_point. intros H. apply andb_prop in H. destruct H as [Hx Hy].
  apply equals2D_true.
  split; apply eqb_refl_not_nan; [now destruct (is_nan (x c))
                                 |now destruct (is_nan (y c))].
Qed.

(** ** Calls to the collaborator *)

Lemma silent_ret {A : Type} (a : A) : silent (ret a).
Proof. reflexivity. Qed.

Lemma silent_bind {A B : Type} (m : M A) (k : A -> M B) :
  silent m -> (forall a, silent (k a)) -> silent (bind m k).
Proof.
  unfold silent. destruct m as [[a| | |] l]; simpl; intros -> Hk; try reflexivity.
  specialize (Hk a). now destruct (k a) as [r l'].
Qed.

Lemma calls_bind {A B : Type} (m : M A) (k : A -> M B) (n : nat) :
  silent m -> (forall a, (List.length (snd (k a)) <= n)%nat) ->
  (List.length (snd (bind m k)) <= n)%nat.
Proof.
  unfold silent. destruct m as [[a| | |] l]; simpl; intros -> Hk;
    try (simpl; lia).
  specialize (Hk a). now destruct (k a) as [r l'].
Qed.

Lemma silent_getAt (ring : CoordinateSequence) (i : Z) : silent (getAt ring i).
Proof. unfold getAt. now destruct (at_index ring i). Qed.

Lemma silent_getY (ring : CoordinateSequence) (i : Z) : silent (getY ring i).
Proof.
  unfold getY. apply silent_bind; [apply silent_getAt|intros; apply silent_ret].
Qed.

Lemma silent_scan_body (ring : CoordinateSequence) (i : Z) (s : ScanState) :
  silent (scan_body ring i s).
Proof.
  unfold scan_body. apply silent_bind; [apply silent_getY|]. intros py.
  apply silent_bind; [|intros; apply silent_ret].
  destruct (_ && _); [|apply silent_ret].
  apply silent_bind; [apply silent_getAt|]. intros hi.
  apply silent_bind; [apply silent_getAt|]. intros lo. apply silent_ret.
Qed.

Lemma silent_scan_loop (ring : CoordinateSequence) (n : nat) :
  forall i s, silent (scan_loop ring n i s).
Proof.
  induction n as [|n IH]; intros i s; simpl; [apply silent_ret|].
  apply silent_bind; [apply silent_scan_body|]. intros s'. apply IH.
Qed.

Lemma silent_scan (ring : CoordinateSequence) (nPts : Z) : silent (scan ring nPts).
Proof.
  unfold scan, scan_prefix, scan_init. apply silent_bind.
  - apply silent_bind; [apply silent_getAt|intros; apply silent_ret].
  - intros s. apply silent_scan_loop.
Qed.

Lemma silent_downLow_loop (ring : CoordinateSequence) (nPts iUp : Z)
  (upHi : Coordinate) (fuel : nat) :
  forall iDownLow, silent (downLow_loop fuel ring nPts iUp upHi iDownLow).
Proof.
  induction fuel as [|fuel IH]; intros cur; [reflexivity|].
  rewrite downLow_loop_S.
  destruct (negb _); [|apply silent_ret].
  apply silent_bind; [apply silent_getY|]. intros py.
  destruct (py =? y upHi)%float; [apply IH|apply silent_ret].
Qed.

Lemma silent_int_sub (a b : Z) : silent (int_sub a b).
Proof. unfold int_sub. now destruct (_ && _). Qed.

(** A property that holds of every failure without calls and of every
    continuation holds of a sequence that starts silently. *)
Lemma bind_silent_rule {A B : Type} (Q : M B -> Prop) (m : M A) (k : A -> M B) :
  silent m ->
  (forall r : outcome B, (forall b, r <> Val b) -> Q (r, [])) ->
  (forall a, Q (k a)) ->
  Q (bind m k).
Proof.
  unfold silent. destruct m as [[a| | |] l]; simpl; intros -> Hfail Hk;
    try (apply Hfail; discriminate).
  specialize (Hk a). now destruct (k a) as [r l'].
Qed.

(** * Further theorems *)

(** X1: the scan leaves in [upHiPt] a highest point of the ring: when the
    y ordinates are numbers, no vertex of the ring lies above [upHiPt]
    (lines 63-81). *)
Theorem upHiPt_is_highest (ring : CoordinateSequence) (s : ScanState) :
  4 <= size ring -> fits_int ring ->
  numbers_y ring = true ->
  scan ring (size ring - 1) = ret s ->
  forall c, In c ring -> (y c <=? y (upHiPt s))%float = true.
Proof.
  intros Hsize Hfits Hnum Hscan.
  now destruct (scan_top ring Hsize Hfits Hnum s Hscan) as [Hmax _].
Qed.

Lemma upHiPt_is_highest_witness :
  let s := mkScanState (pt 2 1) 0 (pt 2 0) 2 in
  (4 <= size flat_top /\ fits_int flat_top /\ numbers_y flat_top = true /\
   scan flat_top (size flat_top - 1) = ret s) /\
  forall c, In c flat_top -> (y c <=? y (upHiPt s))%float = true.
Proof.
  intros s. split.
  - repeat split; by_evaluation.
  - apply (upHiPt_is_highest flat_top s); by_evaluation.
Defined.

(** X2: [iUpHi] is the last upward step that reaches the top, not the
    first: when the y ordinates are numbers, every upward step made after
    [iUpHi] ends strictly below [upHiPt] (the test [py >= upHiPt.y] of
    line 75 lets a later step to the same height replace an earlier
    one). *)
Theorem later_rises_end_below_upHiPt (ring : CoordinateSequence) (s : ScanState)
  (j : Z) (p c : Coordinate) :
  4 <= size ring -> fits_int ring ->
  numbers_y ring = true ->
  scan ring (size ring - 1) = ret s ->
  iUpHi s < j <= size ring - 1 ->
  at_index ring (j - 1) = Some p ->
  at_index ring j = Some c ->
  (y p <? y c)%float = true ->
  (y c <? y (upHiPt s))%float = true.
Proof.
  intros Hsize Hfits Hnum Hscan.
  destruct (scan_top ring Hsize Hfits Hnum s Hscan) as (_ & Hlater & _).
  apply Hlater.
Qed.

Lemma later_rises_end_below_upHiPt_witness :
  let ring := [pt 0 0; pt 1 2; pt 2 0; pt 3 1; pt 0 0]%float in
  let s := mkScanState (pt 1 2) 0 (pt 0 0) 1 in
  (4 <= size ring /\ fits_int ring /\ numbers_y ring = true /\
   scan ring (size ring - 1) = ret s /\
   iUpHi s < 3 <= size ring - 1 /\
   at_index ring (3 - 1) = Some (pt 2 0) /\
   at_index ring 3 = Some (pt 3 1) /\
   (y (pt 2 0) <? y (pt 3 1))%float = true) /\
  (y (pt 3 1) <? y (upHiPt s))%float = true.
Proof.
  intros ring s. split.
  - repeat split; by_evaluation.
  - apply (later_rises_end_below_upHiPt ring s 3 (pt 2 0) (pt 3 1));
      try by_evaluation.
    split; by_evaluation.
Defined.

(** X3: on a closed ring whose y ordinates are numbers the scan keeps its
    sentinel [iUpHi = 0] (and [isCCW] takes the flat exit of line 85)
    exactly when all points of the ring have the same y: "the ring must be
    flat", as the comment of lines 55-62 says, by the convention that the
    ring ends where it starts. *)
Theorem flat_exit_iff_level (ring : CoordinateSequence) (s : ScanState) :
  4 <= size ring -> fits_int ring ->
  numbers_y ring = true ->
  isClosed ring = true ->
  scan ring (size ring - 1) = ret s ->
  (iUpHi s = 0 <->
   forall c c', In c ring -> In c' ring -> (y c =? y c')%float = true).
Proof.
  intros Hsize Hfits Hnum Hclosed Hscan. split.
  - intros Hzero c c' Hc Hc'.
    destruct (scan_top ring Hsize Hfits Hnum s Hscan) as (_ & _ & Hlevel).
    eapply eqb_trans; [apply (Hlevel Hzero Hclosed c Hc)|].
    apply eqb_sym. apply (Hlevel Hzero Hclosed c' Hc').
  - intros Hlevel.
    destruct (scan_no_rise ring Hsize Hfits) as (s' & Hs' & Hup).
    + intros i _. apply rising_to_high_level. intros prev cur Hp Hc.
      apply eqb_ltb_false. apply Hlevel; eapply at_index_In; eassumption.
    + rewrite Hscan in Hs'. inversion Hs'. now subst s'.
Qed.

Lemma flat_exit_iff_level_witness :
  let s := mkScanState (pt 0 0) 0 setNull 0 in
  (4 <= size flat_ring /\ fits_int flat_ring /\ numbers_y flat_ring = true /\
   isClosed flat_ring = true /\
   scan flat_ring (size flat_ring - 1) = ret s) /\
  (iUpHi s = 0 <->
   forall c c', In c flat_ring -> In c' flat_ring -> (y c =? y c')%float = true).
Proof.
  intros s. split.
  - repeat split; by_evaluation.
  - apply (flat_exit_iff_level flat_ring s); by_evaluation.
Defined.

(** X4: in the pointed-cap branch the apex never coincides with a flank, so
    of the three tests of line 117 only [upLowPt.equals2D(downLowPt)] can
    succeed: [isCCW] returns false without a call when the two flanks
    coincide, and otherwise asks the collaborator. *)
Theorem pointed_cap_decided_by_flanks
  (orientationIndex : Coordinate -> Coordinate -> Coordinate -> Z)
  (ring : CoordinateSequence) (lm : Landmarks) :
  4 <= size ring -> fits_int ring ->
  landmark_search ring = Some lm ->
  equals2D (lm_upHiPt lm) (lm_downHiPt lm) = true ->
  equals2D (lm_upLowPt lm) (lm_upHiPt lm) = false /\
  equals2D (lm_downLowPt lm) (lm_upHiPt lm) = false /\
  isCCW orientationIndex ring =
    if equals2D (lm_upLowPt lm) (lm_downLowPt lm) then (Val false, [])
    else (Val (orientationIndex (lm_upLowPt lm) (lm_upHiPt lm) (lm_downLowPt lm)
                 =? COUNTERCLOCKWISE),
          [(lm_upLowPt lm, lm_upHiPt lm, lm_downLowPt lm)]).
Proof.
  intros Hsize Hfits Hlm Hcap.
  destruct (landmark_search_facts orientationIndex ring Hsize Hfits lm Hlm)
    as (_ & Hlt & Hoff & _).
  apply ltb_eqb_false in Hlt.
  assert (H1 : equals2D (lm_upLowPt lm) (lm_upHiPt lm) = false).
  { destruct (equals2D (lm_upLowPt lm) (lm_upHiPt lm)) eqn:E; [|reflexivity].
    apply equals2D_y in E. congruence. }
  assert (H2 : equals2D (lm_downLowPt lm) (lm_upHiPt lm) = false).
  { destruct (equals2D (lm_downLowPt lm) (lm_upHiPt lm)) eqn:E; [|reflexivity].
    apply equals2D_y in E. congruence. }
  split; [exact H1|]. split; [exact H2|].
  rewrite (isCCW_by_landmarks orientationIndex ring Hsize Hfits lm Hlm).
  now rewrite Hcap, H1, H2.
Qed.

Lemma pointed_cap_decided_by_flanks_witness :
  let lm := mkLandmarks (pt 0 0) (pt 1 1) (pt 0 0) (pt 1 1) in
  (4 <= size back_and_forth /\ fits_int back_and_forth /\
   landmark_search back_and_forth = Some lm /\
   equals2D (lm_upHiPt lm) (lm_downHiPt lm) = true) /\
  equals2D (lm_upLowPt lm) (lm_upHiPt lm) = false /\
  equals2D (lm_downLowPt lm) (lm_upHiPt lm) = false /\
  isCCW CGAlgorithmsDD.orientationIndex back_and_forth =
    if equals2D (lm_upLowPt lm) (lm_downLowPt lm) then (Val false, [])
    else (Val (CGAlgorithmsDD.orientationIndex
                 (lm_upLowPt lm) (lm_upHiPt lm) (lm_downLowPt lm)
               =? COUNTERCLOCKWISE),
          [(lm_upLowPt lm, lm_upHiPt lm, lm_downLowPt lm)]).
Proof.
  intros lm. split.
  - repeat split; by_evaluation.
  - apply (pointed_cap_decided_by_flanks CGAlgorithmsDD.orientationIndex
             back_and_forth lm); by_evaluation.
Defined.

(** X5: the landmarks sit at the top of the ring.  On a closed ring whose y
    ordinates are numbers, [upHiPt] and [downHiPt] are level and no vertex
    lies above them, while [upLowPt] and [downLowPt] lie strictly below: the
    rising and the falling segment of lines 56-99 exist. *)
Theorem landmarks_at_the_top (ring : CoordinateSequence) (lm : Landmarks) :
  4 <= size ring -> fits_int ring ->
  numbers_y ring = true ->
  isClosed ring = true ->
  landmark_search ring = Some lm ->
  (forall c, In c ring -> (y c <=? y (lm_upHiPt lm))%float = true) /\
  (y (lm_downHiPt lm) =? y (lm_upHiPt lm))%float = true /\
  (y (lm_upLowPt lm) <? y (lm_upHiPt lm))%float = true /\
  (y (lm_downLowPt lm) <? y (lm_upHiPt lm))%float = true.
Proof.
  intros Hsize Hfits Hnum Hclosed Hlm.
  destruct (landmark_search_facts (fun _ _ _ => 0) ring Hsize Hfits lm Hlm)
    as ((_ & _ & Hdl & _) & Hlt & Hoff & Hlevel).
  destruct (scan_completes ring Hsize Hfits) as [s [Hscan _]].
  assert (Hhi : lm_upHiPt lm = upHiPt s).
  { destruct (Z.eq_dec (iUpHi s) 0) as [Hup|Hup].
    - rewrite (landmark_search_flat ring s Hscan Hup) in Hlm. discriminate.
    - destruct (isCCW_fuel_nonflat (fun _ _ _ => 0) ring Hsize Hfits s Hscan Hup)
        as (dl & dh & Hl & _).
      rewrite Hl in Hlm. now inversion Hlm. }
  destruct (scan_top ring Hsize Hfits Hnum s Hscan) as (Hmax & _).
  rewrite <- Hhi in Hmax.
  split; [exact Hmax|]. split; [now apply Hlevel|]. split; [exact Hlt|].
  apply leb_neq_ltb; [now apply Hmax|exact Hoff].
Qed.

Lemma landmarks_at_the_top_witness :
  let lm := mkLandmarks (pt 2 0) (pt 2 1) (pt 0 0) (pt 0 1) in
  (4 <= size flat_top /\ fits_int flat_top /\ numbers_y flat_top = true /\
   isClosed flat_top = true /\ landmark_search flat_top = Some lm) /\
  (forall c, In c flat_top -> (y c <=? y (lm_upHiPt lm))%float = true) /\
  (y (lm_downHiPt lm) =? y (lm_upHiPt lm))%float = true /\
  (y (lm_upLowPt lm) <? y (lm_upHiPt lm))%float = true /\
  (y (lm_downLowPt lm) <? y (lm_upHiPt lm))%float = true.
Proof.
  intros lm. split.
  - repeat split; by_evaluation.
  - apply (landmarks_at_the_top flat_top lm); by_evaluation.
Defined.

(** X6: whatever the ring and the loop budget, [isCCW] consults the
    collaborator at most once, and only in a run that returns a boolean:
    a run that throws, that runs into undefined behaviour or that exhausts
    its budget has made no call. *)
Theorem isCCW_calls_index_at_most_once
  (orientationIndex : Coordinate -> Coordinate -> Coordinate -> Z)
  (fuel : nat) (ring : CoordinateSequence) :
  (List.length (snd (isCCW_fuel orientationIndex fuel ring)) <= 1)%nat /\
  (snd (isCCW_fuel orientationIndex fuel ring) <> [] ->
   exists b, fst (isCCW_fuel orientationIndex fuel ring) = Val b).
Proof.
  set (Q := fun r : M bool =>
              (List.length (snd r) <= 1)%nat /\
              (snd r <> [] -> exists b, fst r = Val b)).
  assert (Hfail : forall r : outcome bool, (forall b, r <> Val b) -> Q (r, [])).
  { intros r _. split; [simpl; lia|]. simpl. congruence. }
  assert (Hret : forall b, Q (ret b)).
  { intros b. split; [simpl; lia|]. intros _. now exists b. }
  change (Q (isCCW_fuel orientationIndex fuel ring)). unfold isCCW_fuel.
  apply bind_silent_rule; [apply silent_int_sub|exact Hfail|]. intros inPts.
  destruct (inPts <? 3); [apply Hfail; discriminate|]. cbv zeta.
  apply bind_silent_rule; [apply silent_scan|exact Hfail|]. intros s.
  destruct (iUpHi s =? 0); [apply Hret|].
  apply bind_silent_rule; [apply silent_downLow_loop|exact Hfail|]. intros i.
  apply bind_silent_rule; [apply silent_getAt|exact Hfail|]. intros dl.
  apply bind_silent_rule; [apply silent_getAt|exact Hfail|]. intros dh.
  destruct (equals2D (upHiPt s) dh); [|apply Hret].
  destruct (_ || _); [apply Hret|].
  split; [simpl; lia|]. intros _. simpl. now eexists.
Qed.

(** X7: on a triangle p0, p1, p2, p0 whose ordinates are numbers, whenever
    [isCCW] consults the collaborator it passes the three corners in ring
    order, starting from any of them, and answers whether that call gives
    COUNTERCLOCKWISE: corners are never passed out of order or twice. *)
Theorem isCCW_triangle_call
  (orientationIndex : Coordinate -> Coordinate -> Coordinate -> Z)
  (p0 p1 p2 : Coordinate) (call : IndexCall) :
  is_point p0 = true -> is_point p1 = true -> is_point p2 = true ->
  In call (snd (isCCW orientationIndex [p0; p1; p2; p0])) ->
  (call = (p0, p1, p2) \/ call = (p1, p2, p0) \/ call = (p2, p0, p1)) /\
  isCCW orientationIndex [p0; p1; p2; p0] =
    (Val (index_of orientationIndex call =? COUNTERCLOCKWISE), [call]).
Proof.
  intros H0 H1 H2. set (ring := [p0; p1; p2; p0]).
  assert (Hsize : 4 <= size ring) by (vm_compute; discriminate).
  assert (Hfits : fits_int ring) by (vm_compute; discriminate).
  destruct (scan_completes ring Hsize Hfits) as [s [Hscan _]].
  destruct (Z.eq_dec (iUpHi s) 0) as [Hup|Hup].
  { unfold isCCW.
    rewrite (isCCW_fuel_flat orientationIndex ring Hsize Hfits _ s Hscan Hup).
    simpl. contradiction. }
  destruct (isCCW_fuel_nonflat orientationIndex ring Hsize Hfits s Hscan Hup)
    as (dl & dh & Hl & Hrun & _).
  destruct (landmark_search_facts orientationIndex ring Hsize Hfits _ Hl)
    as (_ & Hlt & Hoff & _).
  destruct (landmark_search_indices ring _ Hsize Hfits Hl)
    as (iUp & iDown & HiUp & HiDown & Hne & Hlo & Hhi & Hdl & _).
  simpl in Hlt, Hoff, Hlo, Hhi, Hdl.
  unfold isCCW. rewrite Hrun by (vm_compute; discriminate).
  remember (upLowPt s) as lo eqn:Elo. remember (upHiPt s) as hi eqn:Ehi.
  clear Elo Ehi Hrun Hl Hscan Hup.
  destruct (equals2D hi dh); [|simpl; contradiction].
  destruct (equals2D lo hi || equals2D dl hi || equals2D lo dl) eqn:D;
    [simpl; contradiction|].
  simpl. intros [<-|[]]. split; [|reflexivity].
  apply orb_false_iff in D. destruct D as [_ Hflank].
  pose proof (equals2D_refl p0 H0) as R0.
  pose proof (equals2D_refl p1 H1) as R1.
  pose proof (equals2D_refl p2 H2) as R2.
  pose proof (equals2D_y _ _ R0) as Y0.
  change (size ring - 1) with 3 in HiUp, HiDown.
  assert (Hcases : (iUp = 1 \/ iUp = 2 \/ iUp = 3) /\
                   (iDown = 0 \/ iDown = 1 \/ iDown = 2)) by lia.
  destruct Hcases as [[->|[->| ->]] [->|[->| ->]]]; try lia;
    vm_compute in Hlo, Hhi, Hdl;
    injection Hlo as <-; injection Hhi as <-; injection Hdl as <-;
    try congruence; auto.
Qed.

Lemma isCCW_triangle_call_witness :
  let call := (pt 2 0, pt 1 1, pt 0 0) in
  (is_point (pt 0 0) = true /\ is_point (pt 2 0) = true /\
   is_point (pt 1 1) = true /\
   In call (snd (isCCW CGAlgorithmsDD.orientationIndex triangle))) /\
  (call = (pt 0 0, pt 2 0, pt 1 1) \/ call = (pt 2 0, pt 1 1, pt 0 0) \/
   call = (pt 1 1, pt 0 0, pt 2 0)) /\
  isCCW CGAlgorithmsDD.orientationIndex triangle =
    (Val (index_of CGAlgorithmsDD.orientationIndex call =? COUNTERCLOCKWISE),
     [call]).
Proof.
  intros call.
  assert (Hin : In call (snd (isCCW CGAlgorithmsDD.orientationIndex triangle)))
    by (vm_compute; left; reflexivity).
  split.
  - repeat split; try by_evaluation. exact Hin.
  - apply (isCCW_triangle_call CGAlgorithmsDD.orientationIndex
             (pt 0 0) (pt 2 0) (pt 1 1) call); try by_evaluation.
    exact Hin.
Defined.

(** X8: the flat cap is a level segment with two ends: on a closed ring,
    when [upHiPt] and [downHiPt] differ they have the same y, so they
    differ in x, and [isCCW] answers by the sign of that difference
    (lines 128-134). *)
Theorem flat_cap_is_level
  (orientationIndex : Coordinate -> Coordinate -> Coordinate -> Z)
  (ring : CoordinateSequence) (lm : Landmarks) :
  4 <= size ring -> fits_int ring ->
  isClosed ring = true ->
  landmark_search ring = Some lm ->
  equals2D (lm_upHiPt lm) (lm_downHiPt lm) = false ->
  (y (lm_downHiPt lm) =? y (lm_upHiPt lm))%float = true /\
  (x (lm_upHiPt lm) =? x (lm_downHiPt lm))%float = false /\
  isCCW orientationIndex ring =
    (Val (x (lm_downHiPt lm) - x (lm_upHiPt lm) <? 0)%float, []).
Proof.
  intros Hsize Hfits Hclosed Hlm Hcap.
  destruct (landmark_search_facts orientationIndex ring Hsize Hfits lm Hlm)
    as (_ & _ & _ & Hlevel).
  specialize (Hlevel Hclosed).
  split; [exact Hlevel|]. split.
  - unfold equals2D in Hcap. rewrite (eqb_sym _ _ Hlevel) in Hcap.
    now destruct (x (lm_upHiPt lm) =? x (lm_downHiPt lm))%float.
  - rewrite (isCCW_by_landmarks orientationIndex ring Hsize Hfits lm Hlm).
    now rewrite Hcap.
Qed.

Lemma flat_cap_is_level_witness :
  let lm := mkLandmarks (pt 2 0) (pt 2 1) (pt 0 0) (pt 0 1) in
  (4 <= size flat_top /\ fits_int flat_top /\ isClosed flat_top = true /\
   landmark_search flat_top = Some lm /\
   equals2D (lm_upHiPt lm) (lm_downHiPt lm) = false) /\
  (y (lm_downHiPt lm) =? y (lm_upHiPt lm))%float = true /\
  (x (lm_upHiPt lm) =? x (lm_downHiPt lm))%float = false /\
  isCCW CGAlgorithmsDD.orientationIndex flat_top =
    (Val (x (lm_downHiPt lm) - x (lm_upHiPt lm) <? 0)%float, []).
Proof.
  intros lm. split.
  - repeat split; by_evaluation.
  - apply (flat_cap_is_level CGAlgorithmsDD.orientationIndex flat_top lm);
      by_evaluation.
Defined.

(** X9: a ring along which y never increases from a vertex to the next
    (descending, level, or with y ordinates that are not numbers) is
    answered false, without a call (lines 70-85). *)
Theorem isCCW_no_upward_step
  (orientationIndex : Coordinate -> Coordinate -> Coordinate -> Z)
  (ring : CoordinateSequence) :
  4 <= size ring -> fits_int ring ->
  (forall i prev cur, 1 <= i <= size ring - 1 ->
     at_index ring (i - 1) = Some prev -> at_index ring i = Some cur ->
     (y prev <? y cur)%float = false) ->
  isCCW orientationIndex ring = (Val false, []).
Proof.
  intros Hsize Hfits Hdown.
  destruct (scan_no_rise ring Hsize Hfits) as (s & Hs & Hup).
  - intros i Hi. apply rising_to_high_level. intros prev cur. now apply Hdown.
  - unfold isCCW. now apply isCCW_fuel_flat with s.
Qed.

Lemma isCCW_no_upward_step_witness :
  let ring := [pt 0 3; pt 1 2; pt 2 2; pt 3 0]%float in
  (4 <= size ring /\ fits_int ring /\
   forall i prev cur, 1 <= i <= size ring - 1 ->
     at_index ring (i - 1) = Some prev -> at_index ring i = Some cur ->
     (y prev <? y cur)%float = false) /\
  isCCW CGAlgorithmsDD.orientationIndex ring = (Val false, []).
Proof.
  intros ring.
  assert (Hdown : forall i prev cur, 1 <= i <= size ring - 1 ->
            at_index ring (i - 1) = Some prev -> at_index ring i = Some cur ->
            (y prev <? y cur)%float = false).
  { intros i prev cur Hi. change (size ring - 1) with 3 in Hi.
    assert (Hcases : i = 1 \/ i = 2 \/ i = 3) by lia.
    destruct Hcases as [->|[->| ->]]; vm_compute;
      intros Hp Hc; injection Hp as <-; injection Hc as <-; reflexivity. }
  split.
  - repeat split; [by_evaluation | by_evaluation | exact Hdown].
  - apply (isCCW_no_upward_step CGAlgorithmsDD.orientationIndex ring);
      [by_evaluation | by_evaluation | exact Hdown].
Defined.

Lemma ltb_leb_false (a b : float) :
  (a <? b)%float = true -> (b <=? a)%float = false.
Proof.
  intros H. pose proof (ltb_is_nan_l _ _ H) as Ha.
  pose proof (ltb_is_nan_r _ _ H) as Hb.
  apply ltb_key in H; try assumption.
  destruct (b <=? a)%float eqn:E; [|reflexivity].
  apply leb_key in E; try assumption. destruct E as [E|E].
  - now apply lex_lt_asym in H.
  - rewrite E in H. now apply lex_lt_irrefl in H.
Qed.

Lemma iDownHi_of_inv (nPts i m : Z) :
  0 <= i < nPts -> iDownHi_of nPts i = m -> i = (m + 1) mod nPts.
Proof.
  intros Hi. unfold iDownHi_of.
  destruct (0 <? i) eqn:E; intros <-.
  - apply Z.ltb_lt in E. replace (i - 1 + 1) with i by lia.
    now rewrite Z.mod_small by lia.
  - apply Z.ltb_ge in E. replace (nPts - 1 + 1) with nPts by lia.
    rewrite Z.mod_same by lia. lia.
Qed.

(** With one vertex strictly above all the others the search finds that
    vertex, as [upHiPt] and as [downHiPt], and its two neighbours along the
    ring. *)
Lemma unique_top_landmarks
  (ring : CoordinateSequence) (t : Z) (top prev next : Coordinate) :
  4 <= size ring -> fits_int ring ->
  1 <= t <= size ring - 1 ->
  at_index ring t = Some top ->
  at_index ring (t mod (size ring - 1)) = Some top ->
  at_index ring (t - 1) = Some prev ->
  at_index ring ((t + 1) mod (size ring - 1)) = Some next ->
  is_point top = true ->
  (forall j c, 0 <= j <= size ring - 1 ->
     j <> t -> j <> t mod (size ring - 1) ->
     at_index ring j = Some c -> (y c <? y top)%float = true) ->
  landmark_search ring = Some (mkLandmarks prev top next top).
Proof.
  intros Hsize Hfits Ht Htop Htop' Hprev Hnext Hpoint Hbelow.
  unfold fits_int, INT_MAX in Hfits.
  set (nPts := size ring - 1) in *.
  assert (Hm : 0 <= t mod nPts < nPts) by (apply Z.mod_pos_bound; lia).
  assert (Hm' : t mod nPts = t \/ (t = nPts /\ t mod nPts = 0)).
  { destruct (Z.eq_dec t nPts) as [->|Hne].
    - right. split; [reflexivity|]. apply Z.mod_same. lia.
    - left. apply Z.mod_small. lia. }
  assert (Hrefl : equals2D top top = true) by now apply equals2D_refl.
  assert (Hntop : is_nan (y top) = false).
  { unfold is_point in Hpoint. apply andb_prop in Hpoint.
    destruct Hpoint as [_ Hy]. now destruct (is_nan (y top)). }
  (* no point of the ring lies above the top *)
  assert (Hle : forall j c, 0 <= j <= nPts -> at_index ring j = Some c ->
            (y c <=? y top)%float = true).
  { intros j c Hj Hc.
    destruct (Z.eq_dec j t) as [->|Hjt];
      [assert (c = top) by congruence; subst c; now apply leb_refl|].
    destruct (Z.eq_dec j (t mod nPts)) as [->|Hjm];
      [assert (c = top) by congruence; subst c; now apply leb_refl|].
    apply ltb_leb. now apply (Hbelow j c). }
  assert (Hnum : numbers_y ring = true).
  { unfold numbers_y. apply forallb_forall. intros c Hin.
    destruct (In_at_index ring c Hin) as (j & Hj & Hc).
    destruct (leb_is_nan _ _ (Hle j c ltac:(lia) Hc)) as [Hn _].
    now rewrite Hn. }
  assert (Hrise : (y prev <? y top)%float = true).
  { apply (Hbelow (t - 1) prev); (assumption || lia). }
  (* the ring is not flat *)
  destruct (scan_completes ring Hsize ltac:(unfold fits_int, INT_MAX; lia))
    as [s [Hscan Hinv]].
  destruct (scan_top ring Hsize ltac:(unfold fits_int, INT_MAX; lia) Hnum s Hscan)
    as (Hmax & Hlater & _).
  assert (Hhi_le : (y (upHiPt s) <=? y top)%float = true).
  { destruct Hinv as [_ [(_ & H0 & _)|(Hr & H1 & _)]].
    - apply (Hle 0 _ ltac:(lia) H0).
    - apply (Hle (iUpHi s) _ ltac:(lia) H1). }
  assert (Htop_le : (y top <=? y (upHiPt s))%float = true)
    by (apply Hmax; eapply at_index_In; exact Htop).
  assert (Hup : iUpHi s = t).
  { destruct (Z_lt_ge_dec (iUpHi s) t) as [Hlt|Hge].
    - pose proof (Hlater t prev top ltac:(lia) Hprev Htop Hrise) as Habove.
      apply ltb_leb_false in Habove. congruence.
    - destruct (Z.eq_dec (iUpHi s) t) as [Heq|Hne]; [exact Heq|].
      destruct Hinv as [_ [(H0 & _)|(Hr & H1 & _)]]; [lia|].
      pose proof (Hbelow (iUpHi s) _ ltac:(lia) Hne ltac:(lia) H1) as Hlow.
      apply ltb_leb_false in Hlow. congruence. }
  destruct (isCCW_fuel_nonflat (fun _ _ _ => 0) ring Hsize
              ltac:(unfold fits_int, INT_MAX; lia) s Hscan ltac:(lia))
    as (dl & dh & Hl & _).
  destruct (landmark_search_indices ring _ Hsize
              ltac:(unfold fits_int, INT_MAX; lia) Hl)
    as (iUp & iDown & HiUp & HiDown & Hne & Hlo & Hhi & Hdl & Hdh & _ & Hbefore).
  simpl in Hlo, Hhi, Hdl, Hdh, Hbefore. fold nPts in HiUp, HiDown, Hdh, Hbefore.
  destruct Hinv as [_ [(H0 & _)|(Hr & Hhi' & Hlo' & Hlt)]]; [lia|].
  rewrite Hup in Hhi', Hlo'.
  assert (Ehi : upHiPt s = top) by congruence.
  assert (Elo : upLowPt s = prev) by congruence.
  rewrite Ehi, Elo in *.
  (* the scan index of the landmarks is [t] as well *)
  assert (HiUp' : iUp mod nPts = t mod nPts).
  { destruct (Z.eq_dec iUp t) as [->|Hneq]; [reflexivity|].
    destruct (Z.eq_dec iUp (t mod nPts)) as [Heq|Hneq'].
    - rewrite Heq. apply Z.mod_small. lia.
    - pose proof (Hbelow iUp _ ltac:(lia) Hneq Hneq' Hhi) as Hlow.
      rewrite (eqb_ltb_false _ _ (eqb_refl_not_nan _ Hntop)) in Hlow.
      discriminate. }
  (* the vertex before the falling point is the top *)
  assert (Hq : iDownHi_of nPts iDown = t mod nPts).
  { destruct Hbefore as [Hsame|Hlevel]; [congruence|].
    destruct (Z.eq_dec (iDownHi_of nPts iDown) (t mod nPts)) as [Heq|Hneq];
      [exact Heq|].
    assert (Hrange : 0 <= iDownHi_of nPts iDown < nPts).
    { unfold iDownHi_of. destruct (0 <? iDown) eqn:E;
        [apply Z.ltb_lt in E|]; lia. }
    assert (Hneq' : iDownHi_of nPts iDown <> t) by lia.
    pose proof (Hbelow (iDownHi_of nPts iDown) dh ltac:(lia) Hneq' Hneq Hdh)
      as Hlow.
    apply ltb_eqb_false in Hlow. congruence. }
  rewrite Hq in Hdh. assert (Edh : dh = top) by congruence.
  apply iDownHi_of_inv in Hq; [|lia].
  rewrite Z.add_mod_idemp_l in Hq by lia. rewrite Hq in Hdl.
  assert (Edl : dl = next) by congruence.
  subst dh dl.
  exact Hl.
Qed.

(** The decision at a cap whose apex is met coming up and going down. *)
Lemma cap_of_unique_top
  (orientationIndex : Coordinate -> Coordinate -> Coordinate -> Z)
  (ring : CoordinateSequence) (top prev next : Coordinate) :
  4 <= size ring -> fits_int ring ->
  is_point top = true ->
  landmark_search ring = Some (mkLandmarks prev top next top) ->
  isCCW orientationIndex ring =
    if equals2D prev next then (Val false, [])
    else (Val (orientationIndex prev top next =? COUNTERCLOCKWISE),
          [(prev, top, next)]).
Proof.
  intros Hsize Hfits Hpoint Hl.
  destruct (landmark_search_facts orientationIndex ring Hsize Hfits _ Hl)
    as (_ & Hlt & Hoff & _).
  simpl in Hlt, Hoff.
  rewrite (isCCW_by_landmarks orientationIndex ring Hsize Hfits _ Hl).
  simpl. rewrite (equals2D_refl top Hpoint).
  replace (equals2D prev top) with false.
  2:{ destruct (equals2D prev top) eqn:E; [|reflexivity].
      apply equals2D_y in E. apply ltb_eqb_false in Hlt. congruence. }
  replace (equals2D next top) with false.
  2:{ destruct (equals2D next top) eqn:E; [|reflexivity].
      apply equals2D_y in E. congruence. }
  reflexivity.
Qed.

(** X10: general position.  When one vertex [top] of the ring lies strictly
    above all the others (met by the scan at index [t], which is [nPts]
    when the top is the closing point), [isCCW] decides by the turn at that
    vertex between its two neighbours along the ring: it answers false
    without a call when the neighbours coincide, and otherwise whether
    [index(prev, top, next)] is COUNTERCLOCKWISE. *)
Theorem isCCW_unique_top
  (orientationIndex : Coordinate -> Coordinate -> Coordinate -> Z)
  (ring : CoordinateSequence) (t : Z) (top prev next : Coordinate) :
  4 <= size ring -> fits_int ring ->
  1 <= t <= size ring - 1 ->
  at_index ring t = Some top ->
  at_index ring (t mod (size ring - 1)) = Some top ->
  at_index ring (t - 1) = Some prev ->
  at_index ring ((t + 1) mod (size ring - 1)) = Some next ->
  is_point top = true ->
  (forall j c, 0 <= j <= size ring - 1 ->
     j <> t -> j <> t mod (size ring - 1) ->
     at_index ring j = Some c -> (y c <? y top)%float = true) ->
  isCCW orientationIndex ring =
    if equals2D prev next then (Val false, [])
    else (Val (orientationIndex prev top next =? COUNTERCLOCKWISE),
          [(prev, top, next)]).
Proof.
  intros Hsize Hfits Ht Htop Htop' Hprev Hnext Hpoint Hbelow.
  apply cap_of_unique_top; try assumption.
  now apply unique_top_landmarks with t.
Qed.

Lemma isCCW_unique_top_witness :
  (4 <= size house /\ fits_int house /\ 1 <= 3 <= size house - 1 /\
   at_index house 3 = Some (pt 2 3) /\
   at_index house (3 mod (size house - 1)) = Some (pt 2 3) /\
   at_index house (3 - 1) = Some (pt 4 1) /\
   at_index house ((3 + 1) mod (size house - 1)) = Some (pt 0 1) /\
   is_point (pt 2 3) = true /\
   forall j c, 0 <= j <= size house - 1 ->
     j <> 3 -> j <> 3 mod (size house - 1) ->
     at_index house j = Some c -> (y c <? y (pt 2 3))%float = true) /\
  isCCW CGAlgorithmsDD.orientationIndex house =
    if equals2D (pt 4 1) (pt 0 1) then (Val false, [])
    else (Val (CGAlgorithmsDD.orientationIndex (pt 4 1) (pt 2 3) (pt 0 1)
               =? COUNTERCLOCKWISE),
          [(pt 4 1, pt 2 3, pt 0 1)]).
Proof.
  assert (Hbelow : forall j c, 0 <= j <= size house - 1 ->
            j <> 3 -> j <> 3 mod (size house - 1) ->
            at_index house j = Some c -> (y c <? y (pt 2 3))%float = true).
  { intros j c Hj Hne _. change (size house - 1) with 5 in Hj.
    assert (Hcases : j = 0 \/ j = 1 \/ j = 2 \/ j = 4 \/ j = 5) by lia.
    destruct Hcases as [->|[->|[->|[->| ->]]]]; vm_compute;
      intros Hc; injection Hc as <-; reflexivity. }
  split.
  - repeat split; try by_evaluation. exact Hbelow.
  - apply (isCCW_unique_top CGAlgorithmsDD.orientationIndex house 3
             (pt 2 3) (pt 4 1) (pt 0 1)); try by_evaluation.
    + split; by_evaluation.
    + exact Hbelow.
Defined.

(** ** The ring walked the other way *)

Lemma size_rev (ring : CoordinateSequence) : size (rev ring) = size ring.
Proof. unfold size. now rewrite length_rev. Qed.

Lemma at_index_rev (ring : CoordinateSequence) (j : Z) :
  0 <= j <= size ring - 1 ->
  at_index (rev ring) j = at_index ring (size ring - 1 - j).
Proof.
  unfold size, at_index. intros Hj.
  destruct (j <? 0) eqn:E; [apply Z.ltb_lt in E; lia|].
  destruct (Z.of_nat (List.length ring) - 1 - j <? 0) eqn:E';
    [apply Z.ltb_lt in E'; lia|].
  rewrite nth_error_rev.
  destruct (Nat.ltb_spec (Z.to_nat j) (List.length ring)) as [Hlt|Hge]; [|lia].
  f_equal. lia.
Qed.

(** X11: reversing a closed ring in general position reverses the answer.
    When one vertex lies strictly above all the others and its two
    neighbours do not coincide, [isCCW] asks for the turn (prev, top, next)
    on the ring and for the turn (next, top, prev) on the reversed ring;
    so with a collaborator that is antisymmetric and returns -1, 0 or +1,
    and a turn that is not collinear, the two answers are opposite. *)
Theorem isCCW_reverse_unique_top
  (orientationIndex : Coordinate -> Coordinate -> Coordinate -> Z)
  (ring : CoordinateSequence) (t : Z) (top prev next : Coordinate) :
  4 <= size ring -> fits_int ring ->
  at_index ring 0 = at_index ring (size ring - 1) ->
  1 <= t <= size ring - 1 ->
  at_index ring t = Some top ->
  at_index ring (t mod (size ring - 1)) = Some top ->
  at_index ring (t - 1) = Some prev ->
  at_index ring ((t + 1) mod (size ring - 1)) = Some next ->
  is_point top = true ->
  (forall j c, 0 <= j <= size ring - 1 ->
     j <> t -> j <> t mod (size ring - 1) ->
     at_index ring j = Some c -> (y c <? y top)%float = true) ->
  equals2D prev next = false ->
  (forall a b c, orientationIndex c b a = - orientationIndex a b c) ->
  (forall a b c, -1 <= orientationIndex a b c <= 1) ->
  orientationIndex prev top next <> 0 ->
  exists b,
    isCCW orientationIndex ring = (Val b, [(prev, top, next)]) /\
    isCCW orientationIndex (rev ring) = (Val (negb b), [(next, top, prev)]).
Proof.
  intros Hsize Hfits Hclosed Ht Htop Htop' Hprev Hnext Hpoint Hbelow
         Hflanks Hanti Hrange Hturn.
  pose proof (unique_top_landmarks ring t top prev next Hsize Hfits Ht Htop
                Htop' Hprev Hnext Hpoint Hbelow) as Hl.
  assert (Hsize' : 4 <= size (rev ring)) by now rewrite size_rev.
  assert (Hfits' : fits_int (rev ring)) by (unfold fits_int; now rewrite size_rev).
  unfold fits_int, INT_MAX in Hfits.
  set (nPts := size ring - 1) in *.
  assert (Hone : (nPts + 1) mod nPts = 1).
  { replace (nPts + 1) with (1 + 1 * nPts) by lia.
    rewrite Z.mod_add by lia. apply Z.mod_small. lia. }
  assert (Hl' : landmark_search (rev ring) = Some (mkLandmarks next top prev top)).
  { destruct (Z.eq_dec t nPts) as [Hlast|Hlast].
    - (* the top is the closing point *)
      subst t. rewrite Z.mod_same in Htop', Hbelow by lia. rewrite Hone in Hnext.
      apply (unique_top_landmarks (rev ring) nPts top next prev);
        rewrite ?size_rev; fold nPts; try assumption; try lia.
      + rewrite at_index_rev by (fold nPts; lia). fold nPts.
        now replace (nPts - nPts) with 0 by lia.
      + rewrite Z.mod_same by lia.
        rewrite at_index_rev by (fold nPts; lia). fold nPts.
        now replace (nPts - 0) with nPts by lia.
      + rewrite at_index_rev by (fold nPts; lia). fold nPts.
        now replace (nPts - (nPts - 1)) with 1 by lia.
      + rewrite Hone. rewrite at_index_rev by (fold nPts; lia). fold nPts.
        exact Hprev.
      + intros j c Hj Hne Hne'. rewrite Z.mod_same in Hne' by lia.
        rewrite at_index_rev by (fold nPts; lia). fold nPts.
        apply Hbelow; lia.
    - (* the top is inside the ring *)
      rewrite (Z.mod_small t nPts) in Htop', Hbelow by lia.
      assert (Hmod : (nPts - t) mod nPts = nPts - t) by (apply Z.mod_small; lia).
      apply (unique_top_landmarks (rev ring) (nPts - t) top next prev);
        rewrite ?size_rev; fold nPts; rewrite ?Hmod; try assumption; try lia.
      + rewrite at_index_rev by (fold nPts; lia). fold nPts.
        now replace (nPts - (nPts - t)) with t by lia.
      + rewrite at_index_rev by (fold nPts; lia). fold nPts.
        now replace (nPts - (nPts - t)) with t by lia.
      + rewrite at_index_rev by (fold nPts; lia). fold nPts.
        replace (nPts - (nPts - t - 1)) with (t + 1) by lia.
        destruct (Z.eq_dec (t + 1) nPts) as [Hwrap|Hwrap].
        * rewrite Hwrap, Z.mod_same in Hnext by lia.
          rewrite Hwrap, <- Hclosed. exact Hnext.
        * now rewrite Z.mod_small in Hnext by lia.
      + destruct (Z.eq_dec t 1) as [->|Hfirst].
        * replace (nPts - 1 + 1) with nPts by lia. rewrite Z.mod_same by lia.
          rewrite at_index_rev by (fold nPts; lia). fold nPts.
          replace (nPts - 0) with nPts by lia. rewrite <- Hclosed. exact Hprev.
        * rewrite Z.mod_small by lia.
          rewrite at_index_rev by (fold nPts; lia). fold nPts.
          now replace (nPts - (nPts - t + 1)) with (t - 1) by lia.
      + intros j c Hj Hne _.
        rewrite at_index_rev by (fold nPts; lia). fold nPts.
        apply Hbelow; lia. }
  assert (Hflanks' : equals2D next prev = false).
  { destruct (equals2D next prev) eqn:E; [|reflexivity].
    apply equals2D_sym in E. congruence. }
  rewrite (cap_of_unique_top orientationIndex ring top prev next Hsize
             ltac:(unfold fits_int, INT_MAX; lia) Hpoint Hl).
  rewrite (cap_of_unique_top orientationIndex (rev ring) top next prev Hsize'
             Hfits' Hpoint Hl').
  rewrite Hflanks, Hflanks'. eexists. split; [reflexivity|].
  rewrite (Hanti prev top next).
  specialize (Hrange prev top next). unfold COUNTERCLOCKWISE.
  assert (Hv : orientationIndex prev top next = 1 \/
               orientationIndex prev top next = -1) by lia.
  destruct Hv as [->| ->]; reflexivity.
Qed.

(** The collaborator of the examples is antisymmetric and returns -1, 0
    or +1. *)
Lemma orientationIndex_antisym (a b c : Coordinate) :
  CGAlgorithmsDD.orientationIndex c b a = - CGAlgorithmsDD.orientationIndex a b c.
Proof.
  unfold CGAlgorithmsDD.orientationIndex.
  destruct (CGAlgorithmsDD.scaled (x a)), (CGAlgorithmsDD.scaled (y a)),
           (CGAlgorithmsDD.scaled (x b)), (CGAlgorithmsDD.scaled (y b)),
           (CGAlgorithmsDD.scaled (x c)), (CGAlgorithmsDD.scaled (y c));
    try reflexivity.
  rewrite <- Z.sgn_opp. f_equal. ring.
Qed.

Lemma orientationIndex_range (a b c : Coordinate) :
  -1 <= CGAlgorithmsDD.orientationIndex a b c <= 1.
Proof.
  unfold CGAlgorithmsDD.orientationIndex.
  destruct (CGAlgorithmsDD.scaled (x a)), (CGAlgorithmsDD.scaled (y a)),
           (CGAlgorithmsDD.scaled (x b)), (CGAlgorithmsDD.scaled (y b)),
           (CGAlgorithmsDD.scaled (x c)), (CGAlgorithmsDD.scaled (y c));
    lia.
Qed.

Lemma isCCW_reverse_unique_top_witness :
  (4 <= size house /\ fits_int house /\
   at_index house 0 = at_index house (size house - 1) /\
   1 <= 3 <= size house - 1 /\
   at_index house 3 = Some (pt 2 3) /\
   at_index house (3 mod (size house - 1)) = Some (pt 2 3) /\
   at_index house (3 - 1) = Some (pt 4 1) /\
   at_index house ((3 + 1) mod (size house - 1)) = Some (pt 0 1) /\
   is_point (pt 2 3) = true /\
   (forall j c, 0 <= j <= size house - 1 ->
      j <> 3 -> j <> 3 mod (size house - 1) ->
      at_index house j = Some c -> (y c <? y (pt 2 3))%float = true) /\
   equals2D (pt 4 1) (pt 0 1) = false /\
   CGAlgorithmsDD.orientationIndex (pt 4 1) (pt 2 3) (pt 0 1) <> 0) /\
  exists b,
    isCCW CGAlgorithmsDD.orientationIndex house
      = (Val b, [(pt 4 1, pt 2 3, pt 0 1)]) /\
    isCCW CGAlgorithmsDD.orientationIndex (rev house)
      = (Val (negb b), [(pt 0 1, pt 2 3, pt 4 1)]).
Proof.
  assert (Hbelow : forall j c, 0 <= j <= size house - 1 ->
            j <> 3 -> j <> 3 mod (size house - 1) ->
            at_index house j = Some c -> (y c <? y (pt 2 3))%float = true).
  { intros j c Hj Hne _. change (size house - 1) with 5 in Hj.
    assert (Hcases : j = 0 \/ j = 1 \/ j = 2 \/ j = 4 \/ j = 5) by lia.
    destruct Hcases as [->|[->|[->|[->| ->]]]]; vm_compute;
      intros Hc; injection Hc as <-; reflexivity. }
  split.
  - repeat split; try by_evaluation. exact Hbelow.
  - apply (isCCW_reverse_unique_top CGAlgorithmsDD.orientationIndex house 3
             (pt 2 3) (pt 4 1) (pt 0 1)); try by_evaluation.
    + split; by_evaluation.
    + exact Hbelow.
    + apply orientationIndex_antisym.
    + apply orientationIndex_range.
Defined.

